(** * A shallow embedding of kigen.py: marker-block scanning, splitting,
    rendering and recombination of text files.

    Python [str] values are modelled as [list ascii] (code points 0..255,
    i.e. the Latin-1 range of Python strings); [s2l] turns a string
    literal into that representation. Fallible Python code returns
    [result], whose error side names the exception raised. *)

From Stdlib Require Import Ascii String List Bool Arith Lia.
Import ListNotations.

Abbreviation str := (list ascii).

Definition s2l (s : string) : str := list_ascii_of_string s.

(** ** Python string primitives used by kigen.py *)
Module Py.

(** Characters for which [str.isspace()] holds, restricted to 0..255. *)
Definition is_space (c : ascii) : bool :=
  let n := nat_of_ascii c in
  ((9 <=? n) && (n <=? 13)) || ((28 <=? n) && (n <=? 32))
  || (n =? 133) || (n =? 160).

(** Line boundaries recognised by [str.splitlines()], restricted to
    0..255 (["\r\n"] is handled as one boundary in [splitlines_aux]). *)
Definition is_line_break (c : ascii) : bool :=
  let n := nat_of_ascii c in
  ((10 <=? n) && (n <=? 13)) || ((28 <=? n) && (n <=? 30)) || (n =? 133).

Definition LF : ascii := Ascii.ascii_of_nat 10.
Definition CR : ascii := Ascii.ascii_of_nat 13.
Definition TAB : ascii := Ascii.ascii_of_nat 9.

(** [str.splitlines()]: [cur] is the line being read. A boundary ends the
    current line; a trailing boundary does not open an empty last line. *)
Fixpoint splitlines_aux (cur : str) (s : str) : list str :=
  match s with
  | [] => match cur with [] => [] | _ => [cur] end
  | c :: s' =>
      if Ascii.eqb c CR then
        match s' with
        | c' :: s'' => if Ascii.eqb c' LF then cur :: splitlines_aux [] s''
                       else cur :: splitlines_aux [] s'
        | [] => cur :: splitlines_aux [] s'
        end
      else if is_line_break c then cur :: splitlines_aux [] s'
      else splitlines_aux (cur ++ [c]) s'
  end.

Definition splitlines (s : str) : list str := splitlines_aux [] s.

(** [sep.join(l)]. *)
Fixpoint join (sep : str) (l : list str) : str :=
  match l with
  | [] => []
  | [x] => x
  | x :: l' => x ++ sep ++ join sep l'
  end.

(** [s.split(c)] for a one-character separator [c]: empty fields are kept. *)
Fixpoint split_aux (c : ascii) (cur : str) (s : str) : list str :=
  match s with
  | [] => [cur]
  | x :: s' => if Ascii.eqb x c then cur :: split_aux c [] s'
               else split_aux c (cur ++ [x]) s'
  end.

Definition split (c : ascii) (s : str) : list str := split_aux c [] s.

(** [s.lstrip()], [s.rstrip()], [s.strip()]. *)
Fixpoint lstrip (s : str) : str :=
  match s with
  | [] => []
  | c :: s' => if is_space c then lstrip s' else s
  end.

Definition rstrip (s : str) : str := rev (lstrip (rev s)).

Definition strip (s : str) : str := lstrip (rstrip s).

Fixpoint is_prefix (p s : str) : bool :=
  match p, s with
  | [], _ => true
  | _ :: _, [] => false
  | a :: p', b :: s' => Ascii.eqb a b && is_prefix p' s'
  end.

(** [s.find(p)] as an option: the first index at which [p] occurs. *)
Fixpoint find (p s : str) : option nat :=
  if is_prefix p s then Some 0
  else match s with
       | [] => None
       | _ :: s' => option_map S (find p s')
       end.

(** [p in s]. *)
Definition contains (p s : str) : bool :=
  match find p s with Some _ => true | None => false end.

(** [s[i:j]] for non-negative [i] and [j]. *)
Definition slice {A} (l : list A) (i j : nat) : list A :=
  firstn (j - i) (skipn i l).

(** [tmpl.format(a1, a2, ...)] for templates whose replacement fields are all
    the automatic ["{}"]; arguments are given already converted with
    [str()], and surplus arguments are ignored as Python does. *)
Fixpoint format (tmpl : str) (args : list str) : str :=
  match tmpl with
  | [] => []
  | c :: t =>
      if Ascii.eqb c "{"%char then
        match t with
        | c' :: t' =>
            if Ascii.eqb c' "}"%char then
              match args with
              | a :: args' => a ++ format t' args'
              | [] => format t' []
              end
            else c :: format t args
        | [] => [c]
        end
      else c :: format t args
  end.

(** [str(l)] of a list of plain strings (no quote or backslash inside). *)
Definition list_repr (l : list str) : str :=
  ["["%char] ++ join (s2l ", ") (map (fun s => ["'"%char] ++ s ++ ["'"%char]) l)
  ++ ["]"%char].

End Py.

Module PyTests.
Import Py.
Example splitlines_ex :
  splitlines (s2l "A
B

") = [s2l "A"; s2l "B"; []].
Proof. reflexivity. Qed.
Example split_ex : split ":"%char (s2l "a:b:c") = [s2l "a"; s2l "b"; s2l "c"].
Proof. reflexivity. Qed.
Example strip_ex : strip (s2l "  x y ") = s2l "x y".
Proof. reflexivity. Qed.
Example find_ex : find (s2l "KIGEN") (s2l "# KIGEN_start") = Some 2.
Proof. reflexivity. Qed.
Example format_ex : format (s2l "{} and {}") [s2l "a"; s2l "b"] = s2l "a and b".
Proof. reflexivity. Qed.
End PyTests.

(** ** kigen.py *)
Module Kigen.
Import Py.

Definition START_MARKER : str := s2l "KIGEN_start".
Definition STOP_MARKER : str := s2l "KIGEN_end".

Definition str_eqb (a b : str) : bool :=
  if list_eq_dec ascii_dec a b then true else false.

(** The exceptions kigen.py raises, with the data their messages carry;
    [ValueError] is what a failed tuple unpacking or [str.index] raises. *)
Inductive error :=
| NestedBlockError (idx block_start : nat)
| DanglingBlockEnd (idx : nat)
| UnknownExpansionModule (msg : str)
| InvalidContent (msg : str)
| ValueError.

Inductive result (A : Type) :=
| Ok (a : A)
| Err (e : error).
Arguments Ok {A} a.
Arguments Err {A} e.

Definition bind {A B} (m : result A) (f : A -> result B) : result B :=
  match m with Ok a => f a | Err e => Err e end.

Notation "'let*' x ':=' m 'in' f" := (bind m (fun x => f))
  (at level 200, x name, m at level 100, f at level 200).

(** [ModuleCmd(function, args)]; [args] is an [OrderedDict], kept as an
    association list in insertion order. *)
Record ModuleCmd := mkCmd { function : str; args : list (str * str) }.

(** [AutogenBlock(start, end, command, commentmark)]. *)
Record AutogenBlock := mkBlock {
  start : nat; end_ : nat; command : ModuleCmd; commentmark : str }.

(** [d[k] = v] on an [OrderedDict]: an existing key keeps its position
    and takes the new value, a new key goes last. *)
Fixpoint od_set (k v : str) (d : list (str * str)) : list (str * str) :=
  match d with
  | [] => [(k, v)]
  | (k', v') :: d' => if str_eqb k k' then (k, v) :: d'
                      else (k', v') :: od_set k v d'
  end.

(** [split_marker]: [line.index(START_MARKER)] raises when the marker is
    absent. *)
Definition split_marker (line : str) : result (str * str) :=
  match find START_MARKER line with
  | Some idx => Ok (strip (firstn idx line),
                    strip (skipn (idx + List.length START_MARKER) line))
  | None => Err ValueError
  end.

(** The loop of [extract_args], from the dictionary built so far;
    [k, v = arg.split(':')] raises unless the split has exactly two parts. *)
Fixpoint extract_args_loop (result_ : list (str * str)) (raw_args : list str)
  : result (list (str * str)) :=
  match raw_args with
  | [] => Ok result_
  | arg :: rest =>
      match split ":"%char arg with
      | [k; v] => extract_args_loop (od_set k v result_) rest
      | _ => Err ValueError
      end
  end.

Definition extract_args (raw_args : list str) : result (list (str * str)) :=
  extract_args_loop [] raw_args.

Definition extract_command (line : str) : result (str * ModuleCmd) :=
  let* p := split_marker line in
  let (commentmarker, line) := p in
  let line := strip line in
  match split " "%char line with
  | function :: raw_args =>
      let* args := extract_args raw_args in
      Ok (commentmarker, mkCmd function args)
  | [] => Err ValueError (* [str.split] never returns an empty list *)
  end.

(** The local variables of [extract_blocks]. [command] and [commentmarker]
    start as [None] in Python; they are read only while [in_block] holds,
    that is after a start line assigned them, so any initial value does. *)
Record scan_state := mkState {
  st_result : list AutogenBlock;
  st_in_block : bool;
  st_block_start : nat;
  st_command : ModuleCmd;
  st_commentmarker : str }.

Definition init_state : scan_state := mkState [] false 0 (mkCmd [] []) [].

(** One iteration of the [for idx, line in enumerate(...)] loop. *)
Definition scan_line (st : scan_state) (idx : nat) (line : str)
  : result scan_state :=
  let* st1 :=
    if contains START_MARKER line then
      if st_in_block st then Err (NestedBlockError idx (st_block_start st))
      else
        let* p := extract_command line in
        let (commentmarker, command) := p in
        Ok (mkState (st_result st) true idx command commentmarker)
    else Ok st in
  if contains STOP_MARKER line then
    if negb (st_in_block st1) then Err (DanglingBlockEnd idx)
    else Ok (mkState (st_result st1 ++
                        [mkBlock (st_block_start st1) idx (st_command st1)
                                 (st_commentmarker st1)])
                     false (st_block_start st1) (st_command st1)
                     (st_commentmarker st1))
  else Ok st1.

Fixpoint scan_lines (st : scan_state) (idx : nat) (lines : list str)
  : result scan_state :=
  match lines with
  | [] => Ok st
  | line :: rest => let* st' := scan_line st idx line in
                    scan_lines st' (S idx) rest
  end.

Definition extract_blocks (file_data : str) : result (list AutogenBlock) :=
  let* st := scan_lines init_state 0 (splitlines file_data) in
  Ok (st_result st).

(** The loop of [split_file_at_blocks], [index] being the first line not
    yet consumed. *)
Fixpoint split_loop (file_lines : list str) (index : nat)
  (blocks : list AutogenBlock) : list str :=
  match blocks with
  | [] => []
  | block :: rest =>
      join [LF] (slice file_lines index (start block))
      :: split_loop file_lines (end_ block + 1) rest
  end.

Definition split_file_at_blocks (file_data : str) (blocks : list AutogenBlock)
  : list str :=
  split_loop (splitlines file_data) 0 blocks.

Definition command_to_cmdstr (command : ModuleCmd) : str :=
  let function := format (s2l "{}") [function command] in
  let arg_strs := map (fun kv => format (s2l "{}:{}") [fst kv; snd kv])
                      (args command) in
  join (s2l " ") ([function] ++ arg_strs).

Definition block_to_start_string (block : AutogenBlock) : str :=
  format (s2l "{} KIGEN_start {}")
         [commentmark block; command_to_cmdstr (command block)].

Definition block_to_end_string (block : AutogenBlock) : str :=
  format (s2l "{} KIGEN_end") [commentmark block].

(** [recombine]: the chain of the pairs of [zip(chunks, blocks)], [zip] stopping
    at the shorter list. *)
Definition recombine (chunks blocks : list str) : str :=
  join [LF] (flat_map (fun cb => [fst cb; snd cb]) (combine chunks blocks)).

(** The value returned by a module's [get_content]: a [dict] or any other
    Python value. *)
Inductive content :=
| Dict (d : list (str * str))
| NotDict.

(** [ExpansionModule(name, base_path, module)]: [get_content] is the
    loaded module's function, [template] the contents of the file
    [base_path/name.jinja2] that [expansion_module_to_template] reads. *)
Record ExpansionModule := mkModule {
  name : str; base_path : str;
  get_content : list (str * str) -> content; template : str }.

Fixpoint lookup (k : str) (modules : list (str * ExpansionModule))
  : option ExpansionModule :=
  match modules with
  | [] => None
  | (k', m) :: rest => if str_eqb k k' then Some m else lookup k rest
  end.

Section Render.
(** [expand_template]: jinja2 rendering, an external capability. *)
Variable expand_template : str -> list (str * str) -> str.

(** [render_block]; [modules] is the dictionary built by
    [load_multiple_module_dirs], in insertion order. *)
Definition render_block (block : AutogenBlock)
  (modules : list (str * ExpansionModule)) : result str :=
  let start_str := block_to_start_string block in
  match lookup (function (command block)) modules with
  | None =>
      let mod_dirs := map (fun km => base_path (snd km)) modules in
      let mod_dir_str :=
        format [LF] [list_repr (map (fun x => format (s2l "- {}") [x]) mod_dirs)] in
      Err (UnknownExpansionModule
             (format (s2l "Expansion module `{}` not found in any of the following directories: {}")
                     [function (command block); mod_dir_str]))
  | Some exp_mod =>
      match get_content exp_mod (args (command block)) with
      | NotDict =>
          Err (InvalidContent
                 (format (s2l "get_content functions must return a dictionary!"
                          ++ [LF] ++ s2l "Module {} located in {} does not")
                         [name exp_mod; base_path exp_mod]))
      | Dict content =>
          let template := template exp_mod in
          let body := expand_template template content in
          let end_str := block_to_end_string block in
          Ok (join [LF] [start_str; body; end_str])
      end
  end.

Fixpoint render_blocks (blocks : list AutogenBlock)
  (modules : list (str * ExpansionModule)) : result (list str) :=
  match blocks with
  | [] => Ok []
  | b :: bs => let* r := render_block b modules in
               let* rs := render_blocks bs modules in Ok (r :: rs)
  end.

Definition render_file (input_file_text : str)
  (modules : list (str * ExpansionModule)) : result str :=
  let* blocks := extract_blocks input_file_text in
  let chunks := split_file_at_blocks input_file_text blocks in
  let* expanded_blocks := render_blocks blocks modules in
  Ok (recombine chunks expanded_blocks).
End Render.

End Kigen.

(** ** Vocabulary for the properties *)
Module Props.
Import Py Kigen.

(** The line after the last block of [bs], scanning from line [lo]. *)
Fixpoint next_free (lo : nat) (bs : list AutogenBlock) : nat :=
  match bs with
  | [] => lo
  | b :: bs' => next_free (S (end_ b)) bs'
  end.

(** One block read from [lines], not before line [lo]: its start line
    carries the start marker, its end line the end marker, and it is a
    one-line block exactly when the start line carries the end marker. *)
Definition span_ok (lines : list str) (lo : nat) (b : AutogenBlock) : Prop :=
  lo <= start b /\ start b <= end_ b /\ end_ b < length lines /\
  contains START_MARKER (nth (start b) lines []) = true /\
  contains STOP_MARKER (nth (end_ b) lines []) = true /\
  (start b = end_ b <-> contains STOP_MARKER (nth (start b) lines []) = true).

(** Blocks in line order, each one starting after the previous one ends. *)
Fixpoint spans_from (lines : list str) (lo : nat) (bs : list AutogenBlock)
  : Prop :=
  match bs with
  | [] => True
  | b :: bs' => span_ok lines lo b /\ spans_from lines (S (end_ b)) bs'
  end.

(** Every block is preceded by at least one line outside any block. *)
Fixpoint gaps_nonempty (lo : nat) (bs : list AutogenBlock) : Prop :=
  match bs with
  | [] => True
  | b :: bs' => lo < start b /\ gaps_nonempty (S (end_ b)) bs'
  end.

(** A block rendered with its command unchanged and its original body:
    the reconstructed start line, the body lines, the reconstructed end
    line, joined by newlines. *)
Definition identity_render (file_lines : list str) (b : AutogenBlock) : str :=
  join [LF] ([block_to_start_string b] ++ slice file_lines (S (start b)) (end_ b)
             ++ [block_to_end_string b]).

(** The start and end lines of every block equal their reconstructions. *)
Definition canonical_markers (file_lines : list str) (bs : list AutogenBlock)
  : Prop :=
  forall b, In b bs ->
    nth (start b) file_lines [] = block_to_start_string b /\
    nth (end_ b) file_lines [] = block_to_end_string b.

(** The text uses no line boundary other than a newline and does not end
    with one. *)
Definition plain_lf_text (t : str) : Prop :=
  (forall c, In c t -> is_line_break c = true -> c = LF) /\
  (forall u, t <> u ++ [LF]).

(** A [key:value] argument token. *)
Definition arg_token (kv : str * str) : str := fst kv ++ ":"%char :: snd kv.

(** The arguments part of a start line: one space before each token. *)
Definition args_text (kvs : list (str * str)) : str :=
  List.concat (map (fun kv => " "%char :: arg_token kv) kvs).

(** The first binding of [k] in an association list. *)
Fixpoint assoc (k : str) (d : list (str * str)) : option str :=
  match d with
  | [] => None
  | (k', v) :: d' => if str_eqb k k' then Some v else assoc k d'
  end.

(** The keys of [l] in order of first occurrence, later repetitions and
    the keys of [seen] removed. *)
Fixpoint nodup_first_from (seen : list str) (l : list str) : list str :=
  match l with
  | [] => []
  | k :: l' => if existsb (str_eqb k) seen then nodup_first_from seen l'
               else k :: nodup_first_from (k :: seen) l'
  end.

Definition nodup_first (l : list str) : list str := nodup_first_from [] l.

(** [X] ends with a character that is not whitespace. *)
Definition ends_solid (X : str) : Prop := exists u y, X = u ++ [y] /\ is_space y = false.

(** What holds of the scanner's variables after the lines [P]: the
    blocks found so far are well placed in [P], and an open block starts at
    a line of [P] that carries the start marker but not the end marker. *)
Definition scan_inv (P : list str) (st : scan_state) : Prop :=
  spans_from P 0 (st_result st) /\ next_free 0 (st_result st) <= length P /\
  (st_in_block st = true ->
     next_free 0 (st_result st) <= st_block_start st /\
     st_block_start st < length P /\
     contains START_MARKER (nth (st_block_start st) P []) = true /\
     contains STOP_MARKER (nth (st_block_start st) P []) = false).

End Props.

(** ** The file-system side of kigen.py: paths, module discovery and
    loading, writing, [main] *)
Module KigenIO.
Import Py Kigen.

Definition SEP : ascii := "/"%char.
Definition EXTSEP : ascii := "."%char.

(** [s.rfind(c)] for one character, [None] standing for [-1]. *)
Fixpoint rfind (c : ascii) (s : str) : option nat :=
  match s with
  | [] => None
  | x :: s' =>
      match rfind c s' with
      | Some i => Some (S i)
      | None => if Ascii.eqb x c then Some 0 else None
      end
  end.

(** [s.endswith(suffix)]. *)
Definition ends_with (suffix s : str) : bool := is_prefix (rev suffix) (rev s).

(** [os.path.basename(p)] (posixpath): [p[p.rfind('/') + 1:]]. *)
Definition basename (p : str) : str :=
  match rfind SEP p with Some i => skipn (S i) p | None => p end.

(** [os.path.splitext(p)] (genericpath's [_splitext] with [sep = '/'] and
    [extsep = '.']): the split is at the last dot, provided it lies in the
    last path component and some character other than a dot precedes it
    there; otherwise the extension is empty. *)
Definition splitext (p : str) : str * str :=
  let filenameIndex := match rfind SEP p with Some s => S s | None => 0 end in
  match rfind EXTSEP p with
  | Some dotIndex =>
      if (filenameIndex <=? dotIndex) &&
         existsb (fun c => negb (Ascii.eqb c EXTSEP))
                 (slice p filenameIndex dotIndex)
      then (firstn dotIndex p, skipn dotIndex p)
      else (p, [])
  | None => (p, [])
  end.

(** [os.path.join(a, b)] (posixpath) with two arguments. *)
Definition path_join (a b : str) : str :=
  if is_prefix [SEP] b then b
  else if match a with [] => true | _ => ends_with [SEP] a end then a ++ b
  else a ++ SEP :: b.

Definition file_path_to_base (path : str) : str := fst (splitext (basename path)).

(** [x in l] for a list of strings. *)
Definition mem (x : str) (l : list str) : bool := existsb (str_eqb x) l.

(** [list(set(l))]: every element once. A Python set has no specified
    iteration order; what is proved below about such lists concerns
    membership and uniqueness only. *)
Fixpoint dedup (l : list str) : list str :=
  match l with
  | [] => []
  | x :: l' => if mem x l' then dedup l' else x :: dedup l'
  end.

(** [d[k] = v] and [d.get(k)] on a dict with string keys, kept as an
    association list in insertion order. *)
Fixpoint dict_set {V} (k : str) (v : V) (d : list (str * V)) : list (str * V) :=
  match d with
  | [] => [(k, v)]
  | (k', v') :: d' => if str_eqb k k' then (k, v) :: d'
                      else (k', v') :: dict_set k v d'
  end.

Fixpoint dict_get {V} (k : str) (d : list (str * V)) : option V :=
  match d with
  | [] => None
  | (k', v) :: d' => if str_eqb k k' then Some v else dict_get k d'
  end.

(** The exceptions raised on this side of the program: a failed [assert],
    [ModuleConflict], an [OSError] of [mkdir] or [open] (with the path),
    those of the rendering core, and any other exception raised by the code
    of a plugin module. *)
Inductive app_error :=
| AssertionError (msg : str)
| ModuleConflict (msg : str)
| OSError (path : str)
| KigenError (e : error)
| PluginError (msg : str).

(** A state monad with exceptions: an exception keeps the state changes
    made before it, as in Python. *)
Inductive outcome (A : Type) := Done (a : A) | Raised (e : app_error).
Arguments Done {A} a.
Arguments Raised {A} e.

Definition M (S A : Type) := S -> outcome A * S.

Definition ret {S A} (a : A) : M S A := fun st => (Done a, st).
Definition raise {S A} (e : app_error) : M S A := fun st => (Raised e, st).
Definition mbind {S A B} (m : M S A) (f : A -> M S B) : M S B :=
  fun st => match m st with
            | (Done a, st') => f a st'
            | (Raised e, st') => (Raised e, st')
            end.
Definition get {S} : M S S := fun st => (Done st, st).
Definition put {S} (st : S) : M S unit := fun _ => (Done tt, st).

Notation "'let+' x ':=' m 'in' f" := (mbind m (fun x => f))
  (at level 200, x name, m at level 100, f at level 200).

(** [ModuleSpace(base_path, modules)]. *)
Record ModuleSpace := mkSpace { space_base_path : str; modules : list str }.

Section Host.
(** Loaded Python module objects, and the directory structure of the file
    system: which paths are directories and which entries they hold. *)
Variable PyModule : Type.
Variable DirTree : Type.
(** The [__name__] of a module. *)
Variable dunder_name : PyModule -> str.

(** The process state the program reads and changes: the contents of the
    regular files, the directory structure, [sys.modules], and the lines
    printed so far. *)
Record io_state := mkIO {
  files : str -> option str;
  dirs : DirTree;
  sys_modules : list (str * PyModule);
  stdout : list str }.

(** [os.path.isdir] and [os.listdir] in a directory structure. *)
Variable isdir : DirTree -> str -> bool.
Variable listdir : DirTree -> str -> list str.
(** [pkgutil.iter_modules([path])]: the names of the modules it yields,
    read from the directory structure when the loop over them starts. *)
Variable iter_modules : DirTree -> str -> list str.
(** [importer.find_module(name).load_module(name)] with the importer of
    [path]: it enters the new module in [sys.modules] and runs the module's
    code, which may change any part of the state (write bytecode files,
    import further modules, print) and may raise. *)
Variable load_module : str -> str -> M io_state PyModule.
(** [pathlib.Path(d).mkdir(parents=True, exist_ok=True)]: whether it
    raises an [OSError] in a given state, and the directory structure after
    it created [d] and its parents. *)
Variable mkdir_fails : io_state -> str -> bool.
Variable make_dirs : DirTree -> str -> DirTree.
(** [open(p, 'w')]: whether it raises an [OSError] in a given state, and
    the directory structure once [p] exists in its directory. *)
Variable open_fails : io_state -> str -> bool.
Variable add_file : DirTree -> str -> DirTree.

(** [os.path.isfile(p)]. *)
Definition isfile (st : io_state) (p : str) : bool :=
  match files st p with Some _ => true | None => false end.

Definition print (line : str) : M io_state unit :=
  fun st => (Done tt, mkIO (files st) (dirs st) (sys_modules st) (stdout st ++ [line])).

(** [mod_list] of [enumerate_modules_in_dir]. *)
Definition module_list (st : io_state) (path : str) : list str :=
  let files_ := filter (fun x => isfile st (path_join path x)) (listdir (dirs st) path) in
  let py_files := map file_path_to_base (filter (ends_with (s2l ".py")) files_) in
  let jinja_files :=
    map file_path_to_base (filter (ends_with (s2l ".jinja2")) files_) in
  dedup (filter (fun x => mem x jinja_files) py_files).

Definition enumerate_modules_in_dir (path : str) : M io_state ModuleSpace :=
  let+ st := get in
  if isdir (dirs st) path then ret (mkSpace path (module_list st path))
  else raise (AssertionError []).

(** The loop of [load_modules] over the names [pkgutil] yields. *)
Fixpoint load_modules_loop (path : str) (known_modules : list str)
  (names : list str) (result_ : list (str * PyModule))
  : M io_state (list (str * PyModule)) :=
  match names with
  | [] => ret result_
  | package_name :: rest =>
      let full_package_name := format (s2l "{}") [package_name] in
      if negb (mem full_package_name known_modules) then
        load_modules_loop path known_modules rest result_
      else
        let+ st := get in
        let+ module :=
          match dict_get full_package_name (sys_modules st) with
          | None => load_module path package_name
          | Some m => ret m
          end in
        let+ _ := print (format (s2l "Loading module: {}") [dunder_name module]) in
        load_modules_loop path known_modules rest
          (dict_set (dunder_name module) module result_)
  end.

Definition load_modules (path : str) (known_modules : list str)
  : M io_state (list (str * PyModule)) :=
  let+ st := get in
  load_modules_loop path known_modules (iter_modules (dirs st) path) [].

(** [ExpansionModule(name, base_path, module)] as [build_module_dict]
    makes it ([Kigen.ExpansionModule] is the view of it that
    [render_block] uses). *)
Record LoadedModule := mkLoaded {
  lm_name : str; lm_base_path : str; lm_module : PyModule }.

Definition build_module_dict (path : str)
  : M io_state (list (str * LoadedModule)) :=
  let+ mod_space := enumerate_modules_in_dir path in
  let+ loader_dict := load_modules path (modules mod_space) in
  ret (map (fun kv => (fst kv, mkLoaded (fst kv) (space_base_path mod_space) (snd kv)))
           loader_dict).

(** The inner loop of [load_multiple_module_dirs]. *)
Fixpoint merge_modules (local_mod result_ : list (str * LoadedModule))
  : M io_state (list (str * LoadedModule)) :=
  match local_mod with
  | [] => ret result_
  | (k, v) :: rest =>
      match dict_get k result_ with
      | Some r =>
          raise (ModuleConflict
                   (format (s2l "Module {} in {} conflicts with module {} in {}")
                           [k; lm_base_path v; k; lm_base_path r]))
      | None => merge_modules rest (dict_set k v result_)
      end
  end.

(** The outer loop of [load_multiple_module_dirs]. *)
Fixpoint load_dirs_loop (mod_paths : list str) (result_ : list (str * LoadedModule))
  : M io_state (list (str * LoadedModule)) :=
  match mod_paths with
  | [] => ret result_
  | path :: rest =>
      let+ st := get in
      if isdir (dirs st) path then
        (let+ local_mod := build_module_dict path in
         let+ result' := merge_modules local_mod result_ in
         load_dirs_loop rest result')
      else raise (AssertionError (format (s2l "{} is not a directory!") [path]))
  end.

Definition load_multiple_module_dirs (mod_paths : list str)
  : M io_state (list (str * LoadedModule)) :=
  load_dirs_loop mod_paths [].

(** [with open(p, 'w') as ofile: ofile.write(data)]. *)
Definition write (p data : str) : M io_state unit :=
  let+ st := get in
  if open_fails st p then raise (OSError p)
  else put (mkIO (fun q => if str_eqb q p then Some data else files st q)
                 (add_file (dirs st) p) (sys_modules st) (stdout st)).

(** [write_file]; [output_dir] is [None] or a string, and [if output_dir:]
    holds for a non-empty string only. *)
Definition write_file (data original_path : str) (output_dir : option str)
  : M io_state unit :=
  let+ output_path :=
    match output_dir with
    | Some ((_ :: _) as d) =>
        let+ st := get in
        if mkdir_fails st d then raise (OSError d)
        else
          let+ _ := put (mkIO (files st) (make_dirs (dirs st) d) (sys_modules st)
                              (stdout st)) in
          let output_path := path_join d (basename original_path) in
          let+ _ := print (format (s2l "Rendering {} to {}") [original_path; output_path]) in
          ret output_path
    | _ =>
        let+ _ := print (format (s2l "Rendering {} in place") [original_path]) in
        ret original_path
    end in
  write output_path data.

(** [render_file(file_data, modules)] as [read_and_render_file] calls it:
    it runs the [get_content] functions of the modules, whose code may
    change the state and may raise, reads their templates, and raises the
    exceptions of the rendering core. *)
Variable render : list (str * LoadedModule) -> str -> M io_state str.

Definition read_and_render_file (original_file : str)
  (modules : list (str * LoadedModule)) : M io_state str :=
  let+ st := get in
  match files st original_file with
  | Some file_data => render modules file_data
  | None => raise (OSError original_file)
  end.

(** The loop of [main] over the input files. *)
Fixpoint main_loop (input_files : list str) (modules : list (str * LoadedModule))
  (output_dir : option str) : M io_state unit :=
  match input_files with
  | [] => ret tt
  | ifile :: rest =>
      let+ st := get in
      if negb (isfile st ifile) then raise (AssertionError [])
      else
        let+ file_data := read_and_render_file ifile modules in
        let+ _ := write_file file_data ifile output_dir in
        main_loop rest modules output_dir
  end.

Definition main (input_files module_path : list str) (output_dir : option str)
  : M io_state unit :=
  let+ modules := load_multiple_module_dirs module_path in
  main_loop input_files modules output_dir.

End Host.

Arguments mkIO {PyModule DirTree}.
Arguments files {PyModule DirTree}.
Arguments dirs {PyModule DirTree}.
Arguments sys_modules {PyModule DirTree}.
Arguments stdout {PyModule DirTree}.
Arguments isfile {PyModule DirTree}.
Arguments print {PyModule DirTree}.
Arguments module_list {PyModule DirTree}.
Arguments enumerate_modules_in_dir {PyModule DirTree}.
Arguments load_modules_loop {PyModule DirTree}.
Arguments load_modules {PyModule DirTree}.
Arguments mkLoaded {PyModule}.
Arguments lm_name {PyModule}.
Arguments lm_base_path {PyModule}.
Arguments lm_module {PyModule}.
Arguments build_module_dict {PyModule DirTree}.
Arguments merge_modules {PyModule DirTree}.
Arguments load_dirs_loop {PyModule DirTree}.
Arguments load_multiple_module_dirs {PyModule DirTree}.
Arguments write {PyModule DirTree}.
Arguments write_file {PyModule DirTree}.
Arguments read_and_render_file {PyModule DirTree}.
Arguments main_loop {PyModule DirTree}.
Arguments main {PyModule DirTree}.
End KigenIO.


(** ** Auxiliary notions for the statements about the host side *)
Module HostProps.
Import Py Kigen KigenIO.

(** The path [write_file] writes the rendering of [f] to. *)
Definition output_target (output_dir : option str) (f : str) : str :=
  match output_dir with Some ((_ :: _) as d) => path_join d (basename f) | _ => f end.

Section Loading.
Context {PM DT : Type} (dunder_name : PM -> str)
  (iter_modules listdir : DT -> str -> list str)
  (load_module : str -> str -> M (io_state PM DT) PM).

(** Every module in [sys.modules] is registered under its [__name__]. *)
Definition named (st : io_state PM DT) : Prop :=
  forall n m, dict_get n (sys_modules st) = Some m -> dunder_name m = n.

(** From [s] to [s'], the directories [qs] keep the names [pkgutil] yields
    for them and their [.py]/[.jinja2] modules. *)
Definition keeps_modules (qs : list str) (s s' : io_state PM DT) : Prop :=
  forall q, In q qs ->
    iter_modules (dirs s') q = iter_modules (dirs s) q /\
    module_list listdir s' q = module_list listdir s q.

(** A module load that succeeds returns a module named as requested, keeps
    every module of [sys.modules] registered under its [__name__], and
    keeps the modules of the directories [qs]. *)
Definition well_behaved_loader (qs : list str) : Prop :=
  forall p n s m s', load_module p n s = (Done m, s') ->
    dunder_name m = n /\ (named s -> named s') /\ keeps_modules qs s s'.
End Loading.

End HostProps.


(** ** Concrete inputs used by the examples and the counterexamples *)
Module Fixtures.
Import Py Kigen.

(** A text made of the given lines, each ended by a newline. *)
Definition text_of (ls : list string) : str :=
  List.concat (map (fun s => s2l s ++ [LF]) ls).

Definition test_block : str := text_of
  (["This is just a test"; "# KIGEN_start foo_func arg1:a arg2:b arg3:c";
   "# Yeah, just a comment"; "# WOO!"; "# KIGEN_end"; "Some useless stuff";
   "// C style inline comments work too";
   "// KIGEN_start bar_func arg1:a arg2:c arg3:e"; "int main() {";
   "  dothebusiness();"; "}"; "// KIGEN_end"; ""; "Need to test empty blocks";
   "## KIGEN_start baz_func"; "## KIGEN_end"]%string).

(** A text made of the given lines joined by newlines (no final newline). *)
Definition lines_text (ls : list string) : str := join [LF] (map s2l ls).

Definition text_A_block_B : str :=
  lines_text ["A"; "# KIGEN_start f"; "# KIGEN_end"; "B"]%string.

Definition block_f : AutogenBlock := mkBlock 1 2 (mkCmd (s2l "f") []) (s2l "#").

Definition module_foo : ExpansionModule :=
  mkModule (s2l "foo") (s2l "mods") (fun _ => Dict []) [].

Definition text_block_only : str :=
  lines_text ["# KIGEN_start f"; "# KIGEN_end"]%string.

Definition text_unterminated : str :=
  lines_text ["A"; "# KIGEN_start f"; "# KIGEN_end"; "// KIGEN_start g"; "tail"]%string.

Definition test_block_blocks : list AutogenBlock :=
  [mkBlock 1 4 (mkCmd (s2l "foo_func")
                  [(s2l "arg1", s2l "a"); (s2l "arg2", s2l "b"); (s2l "arg3", s2l "c")])
           (s2l "#");
   mkBlock 7 11 (mkCmd (s2l "bar_func")
                  [(s2l "arg1", s2l "a"); (s2l "arg2", s2l "c"); (s2l "arg3", s2l "e")])
           (s2l "//");
   mkBlock 14 15 (mkCmd (s2l "baz_func") []) (s2l "##")].

Definition repeated_args : list (str * str) :=
  [(s2l "a", s2l "1"); (s2l "b", s2l "2"); (s2l "a", s2l "3")].

Definition text_lead_block : str :=
  lines_text ["A"; "# KIGEN_start f"; "# KIGEN_end"]%string.

End Fixtures.

(** ** Concrete directories, files and modules used by the host-side examples:
    directories [a] and [b] each hold the module [foo] ([foo.py] and
    [foo.jinja2]); module objects are represented by their names. *)
Module HostFixtures.
Import Py Kigen KigenIO Fixtures.

(** Directory structures are association lists from directory paths to
    their entries. *)
Definition fx_tree : Type := list (str * list str).
Definition fx_entries : list str :=
  [s2l "foo.py"; s2l "foo.jinja2"; s2l "setup.py"; s2l "notes.txt"].
Definition fx_dirs : fx_tree := [(s2l "a", fx_entries); (s2l "b", fx_entries)].
Definition fx_isdir (t : fx_tree) (p : str) : bool :=
  match dict_get p t with Some _ => true | None => false end.
Definition fx_listdir (t : fx_tree) (p : str) : list str :=
  match dict_get p t with Some l => l | None => [] end.
Definition fx_iter_modules (t : fx_tree) (p : str) : list str :=
  map file_path_to_base (filter (ends_with (s2l ".py")) (fx_listdir t p)).
Definition fx_make_dirs (t : fx_tree) (d : str) : fx_tree :=
  if fx_isdir t d then t else t ++ [(d, [])].
Definition fx_add_file (t : fx_tree) (p : str) : fx_tree := t.
Definition fx_files (q : str) : option str :=
  if mem q [s2l "a/foo.py"; s2l "a/foo.jinja2"; s2l "a/setup.py";
            s2l "b/foo.py"; s2l "b/foo.jinja2"; s2l "b/setup.py"]
  then Some [] else if str_eqb q (s2l "in.txt") then Some text_A_block_B else None.
Definition fx_name (m : str) : str := m.
Definition fx_state : io_state str fx_tree := mkIO fx_files fx_dirs [] [].
(** A state where [foo] is already imported. *)
Definition fx_state_foo : io_state str fx_tree :=
  mkIO fx_files fx_dirs [(s2l "foo", s2l "foo")] [].
(** A loader that enters the module, represented by its name, in
    [sys.modules]; and one whose module code raises. *)
Definition fx_load_module (p n : str) : M (io_state str fx_tree) str :=
  fun st => (Done n, mkIO (files st) (dirs st) (dict_set n n (sys_modules st)) (stdout st)).
Definition fx_load_fail (p n : str) : M (io_state str fx_tree) str :=
  raise (PluginError n).
Definition fx_never (st : io_state str fx_tree) (p : str) : bool := false.
Definition fx_render_fail (mods : list (str * LoadedModule str)) (data : str)
  : M (io_state str fx_tree) str := raise (KigenError ValueError).
Definition fx_render_copy (mods : list (str * LoadedModule str)) (data : str)
  : M (io_state str fx_tree) str := ret data.

End HostFixtures.

Module KigenTests.
Import Fixtures.
Import Py Kigen.

Example block_positions :
  match extract_blocks test_block with
  | Ok bs => map (fun b => (start b, end_ b)) bs
  | Err _ => []
  end = [(1, 4); (7, 11); (14, 15)].
Proof. vm_compute. reflexivity. Qed.

Example split_lead_in :
  match extract_blocks test_block with
  | Ok bs => split_file_at_blocks test_block bs
  | Err _ => []
  end = [s2l "This is just a test";
         s2l "Some useless stuff" ++ [LF] ++ s2l "// C style inline comments work too";
         [LF] ++ s2l "Need to test empty blocks"].
Proof. vm_compute. reflexivity. Qed.

Example round_trip_test :
  match extract_command (s2l "# KIGEN_start foo arg1:a arg2:b") with
  | Ok (cm, c) => Some (block_to_start_string (mkBlock 0 1 c cm))
  | Err _ => None
  end = Some (s2l "# KIGEN_start foo arg1:a arg2:b").
Proof. vm_compute. reflexivity. Qed.
End KigenTests.

(** ** Facts about the Python primitives *)
Module Facts.
Import Py Kigen Props.

Lemma str_eqb_eq a b : str_eqb a b = true <-> a = b.
Proof. unfold str_eqb. destruct (list_eq_dec ascii_dec a b); split; congruence. Qed.

Lemma str_eqb_refl a : str_eqb a a = true.
Proof. apply str_eqb_eq. reflexivity. Qed.

Lemma str_eqb_sym a b : str_eqb a b = str_eqb b a.
Proof.
  destruct (str_eqb a b) eqn:E, (str_eqb b a) eqn:E'; auto;
  rewrite str_eqb_eq in *; subst; rewrite str_eqb_refl in *; congruence.
Qed.

Lemma str_eqb_neq a b : a <> b -> str_eqb a b = false.
Proof. intro H. destruct (str_eqb a b) eqn:E; auto. apply str_eqb_eq in E. congruence. Qed.

(** *** [join] *)
Lemma join_cons sep x l : l <> [] -> join sep (x :: l) = x ++ sep ++ join sep l.
Proof. destruct l; [congruence | reflexivity]. Qed.

Lemma join_app sep A B :
  A <> [] -> B <> [] -> join sep (A ++ B) = join sep A ++ sep ++ join sep B.
Proof.
  intros HA HB. induction A as [|x A IH]; [congruence|].
  destruct A as [|y A].
  - apply join_cons; auto.
  - change ((x :: y :: A) ++ B) with (x :: ((y :: A) ++ B)).
    rewrite join_cons by (simpl; discriminate).
    rewrite (join_cons sep x (y :: A)) by discriminate.
    rewrite IH by discriminate. rewrite !app_assoc. reflexivity.
Qed.

(** *** [slice] *)
Lemma firstn_add {A} a b (M : list A) :
  firstn (a + b) M = firstn a M ++ firstn b (skipn a M).
Proof.
  revert M. induction a as [|a IH]; intros [|x M]; simpl; auto.
  - destruct b; reflexivity.
  - rewrite IH. reflexivity.
Qed.

Lemma slice_app {A} (L : list A) i j k :
  i <= j -> j <= k -> slice L i j ++ slice L j k = slice L i k.
Proof.
  intros Hij Hjk. unfold slice.
  replace (k - i) with ((j - i) + (k - j)) by lia.
  rewrite firstn_add, skipn_skipn.
  replace (j - i + i) with j by lia. reflexivity.
Qed.

Lemma slice_single {A} (L : list A) i d :
  i < length L -> slice L i (S i) = [nth i L d].
Proof.
  unfold slice. replace (S i - i) with 1 by lia.
  revert L. induction i as [|i IH]; intros [|x L] H; simpl in *; try lia.
  - reflexivity.
  - apply IH. lia.
Qed.

Lemma slice_length {A} (L : list A) i j :
  j <= length L -> length (slice L i j) = j - i.
Proof.
  intro H. unfold slice. rewrite length_firstn, length_skipn. lia.
Qed.

Lemma slice_nonempty {A} (L : list A) i j :
  i < j -> j <= length L -> slice L i j <> [].
Proof.
  intros H1 H2 E. apply (f_equal (@length A)) in E.
  rewrite slice_length in E by lia. simpl in E. lia.
Qed.

(** *** [splitlines] *)
Lemma splitlines_aux_nil cur s : splitlines_aux cur s = [] -> cur = [] /\ s = [].
Proof.
  revert cur. induction s as [|c s IH]; intros cur H; simpl in H.
  - destruct cur; [auto | discriminate].
  - destruct (Ascii.eqb c CR).
    + destruct s as [|c' s']; [discriminate|].
      destruct (Ascii.eqb c' LF); discriminate.
    + destruct (is_line_break c); [discriminate|].
      apply IH in H. destruct H as [H _]. destruct cur; discriminate.
Qed.

Lemma join_splitlines_aux cur s :
  (forall c, In c s -> is_line_break c = true -> c = LF) ->
  (forall u, s <> u ++ [LF]) ->
  join [LF] (splitlines_aux cur s) = cur ++ s.
Proof.
  revert cur. induction s as [|c s IH]; intros cur Hb Hend.
  - simpl. rewrite app_nil_r. destruct cur; reflexivity.
  - assert (Hb' : forall c', In c' s -> is_line_break c' = true -> c' = LF)
      by (intros; apply Hb; simpl; auto).
    assert (Hend' : forall u, s <> u ++ [LF])
      by (intros u E; apply (Hend (c :: u)); rewrite E; reflexivity).
    simpl. destruct (Ascii.eqb c CR) eqn:Ecr.
    + apply Ascii.eqb_eq in Ecr. subst c.
      assert (CR = LF) by (apply Hb; [left; reflexivity | reflexivity]).
      discriminate.
    + destruct (is_line_break c) eqn:Elb.
      * assert (c = LF) by (apply Hb; [left |]; auto). subst c.
        assert (Hs : s <> []) by (intro; subst; apply (Hend []); reflexivity).
        rewrite join_cons.
        -- rewrite IH; auto.
        -- intro E. apply splitlines_aux_nil in E. tauto.
      * rewrite IH; auto. rewrite <- app_assoc. reflexivity.
Qed.

Lemma join_splitlines t : plain_lf_text t -> join [LF] (splitlines t) = t.
Proof. intros [Hb He]. apply join_splitlines_aux; auto. Qed.

(** *** [str.split] *)
Lemma split_aux_app c cur w r :
  ~ In c w -> split_aux c cur (w ++ c :: r) = (cur ++ w) :: split_aux c [] r.
Proof.
  revert cur. induction w as [|x w IH]; intros cur H; simpl.
  - rewrite Ascii.eqb_refl, app_nil_r. reflexivity.
  - destruct (Ascii.eqb x c) eqn:E.
    + apply Ascii.eqb_eq in E. subst. exfalso. apply H. left. reflexivity.
    + rewrite IH by (intro; apply H; right; auto). rewrite <- app_assoc. reflexivity.
Qed.

Lemma split_aux_none c cur w : ~ In c w -> split_aux c cur w = [cur ++ w].
Proof.
  revert cur. induction w as [|x w IH]; intros cur H; simpl.
  - rewrite app_nil_r. reflexivity.
  - destruct (Ascii.eqb x c) eqn:E.
    + apply Ascii.eqb_eq in E. subst. exfalso. apply H. left. reflexivity.
    + rewrite IH by (intro; apply H; right; auto). rewrite <- app_assoc. reflexivity.
Qed.

Lemma split_length c cur s :
  length (split_aux c cur s) = S (count_occ ascii_dec s c).
Proof.
  revert cur. induction s as [|x s IH]; intro cur; simpl; auto.
  destruct (Ascii.eqb x c) eqn:E, (ascii_dec x c) as [e|n]; simpl; rewrite ?IH; auto.
  - apply Ascii.eqb_eq in E. congruence.
  - subst. rewrite Ascii.eqb_refl in E. discriminate.
Qed.

Lemma count_one_decompose (c : ascii) s :
  count_occ ascii_dec s c = 1 ->
  exists k v, s = k ++ c :: v /\ ~ In c k /\ ~ In c v.
Proof.
  induction s as [|x s IH]; simpl; [discriminate|].
  destruct (ascii_dec x c) as [e|n].
  - subst. intro H. injection H as H. exists [], s. split; [reflexivity|]. split.
    + simpl. tauto.
    + intro Hin. apply (count_occ_In ascii_dec) in Hin. lia.
  - intro H. destruct (IH H) as (k & v & E & Hk & Hv). exists (x :: k), v.
    subst. split; [reflexivity|]. split; auto. simpl. intros [E|E]; auto.
Qed.

End Facts.

(** ** Facts about the scanner *)
Module ScanFacts.
Import Py Kigen Props Facts.

Lemma extract_args_loop_err acc raw e :
  extract_args_loop acc raw = Err e -> e = ValueError.
Proof.
  revert acc. induction raw as [|a raw IH]; intros acc H; simpl in H.
  - discriminate.
  - destruct (split ":"%char a) as [|k [|v [|x r]]]; try (injection H; auto).
    eapply IH; eauto.
Qed.

Lemma extract_command_err l e : extract_command l = Err e -> e = ValueError.
Proof.
  unfold extract_command, split_marker. destruct (find START_MARKER l); simpl.
  - destruct (split " "%char _) as [|f raw]; simpl; [congruence|].
    destruct (extract_args raw) eqn:E; simpl; [discriminate|].
    intro H; injection H as <-. eapply extract_args_loop_err; eauto.
  - congruence.
Qed.

Lemma scan_lines_app st i a b :
  scan_lines st i (a ++ b) =
  bind (scan_lines st i a) (fun st' => scan_lines st' (i + length a) b).
Proof.
  revert st i. induction a as [|l a IH]; intros st i; simpl.
  - rewrite Nat.add_0_r. reflexivity.
  - destruct (scan_line st i l); simpl; auto.
    rewrite IH. replace (S i + length a) with (i + S (length a)) by lia.
    reflexivity.
Qed.

(** The scan fails with [e] exactly when some line fails with [e] after
    the lines before it went through. *)
Lemma scan_lines_err st i L e :
  scan_lines st i L = Err e <->
  exists pre l post st', L = pre ++ l :: post /\ scan_lines st i pre = Ok st' /\
    scan_line st' (i + length pre) l = Err e.
Proof.
  split.
  - revert st i. induction L as [|l L IH]; intros st i H; simpl in H; [discriminate|].
    destruct (scan_line st i l) as [st1|e1] eqn:E; simpl in H.
    + destruct (IH _ _ H) as (pre & l' & post & st' & -> & Hpre & Hl).
      exists (l :: pre), l', post, st'. split; [reflexivity|]. split.
      * simpl. rewrite E. exact Hpre.
      * simpl. rewrite <- Hl. f_equal. lia.
    + injection H as ->. exists [], l, L, st. rewrite Nat.add_0_r. auto.
  - intros (pre & l & post & st' & -> & Hpre & Hl).
    rewrite scan_lines_app, Hpre. simpl. rewrite Hl. reflexivity.
Qed.

Lemma scan_line_nested st i l a b :
  scan_line st i l = Err (NestedBlockError a b) <->
  contains START_MARKER l = true /\ st_in_block st = true /\
  a = i /\ b = st_block_start st.
Proof.
  unfold scan_line.
  destruct (contains START_MARKER l) eqn:Hs, (st_in_block st) eqn:Hi; simpl.
  - split; [intro H; injection H as <- <-; auto | intros (_ & _ & -> & ->); reflexivity].
  - destruct (extract_command l) as [[cm cmd]|e] eqn:Ec; simpl.
    + destruct (contains STOP_MARKER l); simpl;
        (split; [discriminate | intros (_ & ? & _); discriminate]).
    + split; [| intros (_ & ? & _); discriminate].
      intro H. injection H as ->. apply extract_command_err in Ec. discriminate.
  - destruct (contains STOP_MARKER l); rewrite ?Hi; simpl;
      split; try discriminate; intros (? & _); discriminate.
  - destruct (contains STOP_MARKER l); rewrite ?Hi; simpl;
      split; try discriminate; intros (? & _); discriminate.
Qed.

Lemma scan_line_dangling st i l a :
  scan_line st i l = Err (DanglingBlockEnd a) <->
  contains START_MARKER l = false /\ contains STOP_MARKER l = true /\
  st_in_block st = false /\ a = i.
Proof.
  unfold scan_line.
  destruct (contains START_MARKER l) eqn:Hs, (st_in_block st) eqn:Hi; simpl.
  - split; [discriminate | intros (? & _); discriminate].
  - destruct (extract_command l) as [[cm cmd]|e] eqn:Ec; simpl.
    + destruct (contains STOP_MARKER l); simpl;
        (split; [discriminate | intros (? & _); discriminate]).
    + split; [| intros (? & _); discriminate].
      intro H. injection H as ->. apply extract_command_err in Ec. discriminate.
  - destruct (contains STOP_MARKER l); rewrite ?Hi; simpl;
      split; try discriminate; intros (_ & _ & ? & _); discriminate.
  - destruct (contains STOP_MARKER l) eqn:Ht; rewrite ?Hi; simpl.
    + split; [intro H; injection H as <-; auto | intros (_ & _ & _ & ->); reflexivity].
    + split; [discriminate | intros (_ & ? & _); discriminate].
Qed.

Lemma next_free_snoc lo bs b : next_free lo (bs ++ [b]) = S (end_ b).
Proof. revert lo. induction bs as [|b' bs IH]; intro lo; simpl; auto. Qed.

Lemma next_free_ge lo bs : lo <= next_free lo bs \/ bs <> [].
Proof. destruct bs; simpl; [left; lia | right; discriminate]. Qed.

Lemma span_ok_weaken P Q lo b : span_ok P lo b -> span_ok (P ++ Q) lo b.
Proof.
  intros (H1 & H2 & H3 & H4 & H5 & H6).
  unfold span_ok. rewrite length_app, !app_nth1 by lia.
  repeat split; auto; try lia; apply H6; auto.
Qed.

Lemma spans_from_weaken P Q lo bs : spans_from P lo bs -> spans_from (P ++ Q) lo bs.
Proof.
  revert lo. induction bs as [|b bs IH]; intros lo H; simpl in *; auto.
  destruct H as [Hb Hbs]. split; [apply span_ok_weaken | apply IH]; auto.
Qed.

Lemma spans_from_snoc L lo bs b :
  spans_from L lo bs -> span_ok L (next_free lo bs) b -> spans_from L lo (bs ++ [b]).
Proof.
  revert lo. induction bs as [|b' bs IH]; intros lo H Hb; simpl in *.
  - auto.
  - destruct H as [H1 H2]. split; auto.
Qed.

Lemma nth_last (P : list str) l : nth (length P) (P ++ [l]) [] = l.
Proof. apply nth_middle. Qed.

Lemma scan_line_inv P st l st' :
  scan_inv P st -> scan_line st (length P) l = Ok st' -> scan_inv (P ++ [l]) st'.
Proof.
  intros (Hsp & Hnf & Hopen) H. unfold scan_line in H.
  destruct (contains START_MARKER l) eqn:Hs.
  - destruct (st_in_block st) eqn:Hi; simpl in H; [discriminate|].
    destruct (extract_command l) as [[cm cmd]|e]; simpl in H; [|discriminate].
    destruct (contains STOP_MARKER l) eqn:Ht; simpl in H; injection H as <-.
    + unfold scan_inv; simpl. rewrite next_free_snoc, length_app. simpl.
      split; [|split; [lia | discriminate]].
      apply spans_from_snoc; [apply spans_from_weaken; auto|].
      unfold span_ok; simpl. rewrite length_app, nth_last. simpl.
      repeat split; auto; lia.
    + unfold scan_inv; simpl. rewrite length_app, nth_last. simpl.
      split; [apply spans_from_weaken; auto|]. repeat split; auto; lia.
  - destruct (contains STOP_MARKER l) eqn:Ht; simpl in H.
    + destruct (st_in_block st) eqn:Hi; simpl in H; [|discriminate].
      injection H as <-.
      destruct (Hopen eq_refl) as (O1 & O2 & O3 & O4).
      unfold scan_inv; simpl. rewrite next_free_snoc, length_app. simpl.
      split; [|split; [lia | discriminate]].
      apply spans_from_snoc; [apply spans_from_weaken; auto|].
      unfold span_ok; simpl. rewrite length_app, nth_last, app_nth1 by lia. simpl.
      repeat split; auto; try lia; intro E; first [lia | congruence].
    + injection H as <-. unfold scan_inv. rewrite length_app. simpl.
      split; [apply spans_from_weaken; auto|]. split; [lia|].
      intro Hi. destruct (Hopen Hi) as (O1 & O2 & O3 & O4).
      rewrite app_nth1 by lia. repeat split; auto; lia.
Qed.

Lemma scan_lines_inv P st L st' :
  scan_inv P st -> scan_lines st (length P) L = Ok st' -> scan_inv (P ++ L) st'.
Proof.
  revert P st. induction L as [|l L IH]; intros P st Hinv H; simpl in H.
  - injection H as <-. rewrite app_nil_r. auto.
  - destruct (scan_line st (length P) l) as [st1|e] eqn:E; simpl in H; [|discriminate].
    replace (P ++ l :: L) with ((P ++ [l]) ++ L) by (rewrite <- app_assoc; reflexivity).
    apply (IH _ st1); [eapply scan_line_inv; eauto|].
    rewrite length_app, Nat.add_comm. exact H.
Qed.

Lemma extract_blocks_spans t bs :
  extract_blocks t = Ok bs -> spans_from (splitlines t) 0 bs.
Proof.
  unfold extract_blocks. destruct (scan_lines init_state 0 (splitlines t)) as [st|e] eqn:E;
    simpl; [|discriminate].
  intro H. injection H as <-.
  apply (scan_lines_inv [] init_state) in E; [exact (proj1 E)|].
  unfold scan_inv; simpl. repeat split; auto; discriminate.
Qed.

(** Lines without any marker leave the scanner's variables unchanged. *)
Lemma scan_lines_quiet st i L :
  (forall x, In x L -> contains START_MARKER x = false /\ contains STOP_MARKER x = false) ->
  scan_lines st i L = Ok st.
Proof.
  revert i. induction L as [|l L IH]; intros i H; simpl; auto.
  destruct (H l (or_introl eq_refl)) as [H1 H2].
  unfold scan_line. rewrite H1, H2. simpl. apply IH. intros; apply H; right; auto.
Qed.

End ScanFacts.

(** ** Facts about argument parsing *)
Module ArgFacts.
Import Py Kigen Props Facts.

Lemma split_token k v :
  ~ In ":"%char k -> ~ In ":"%char v -> split ":"%char (arg_token (k, v)) = [k; v].
Proof.
  intros Hk Hv. unfold split, arg_token; simpl.
  rewrite split_aux_app, split_aux_none by auto. reflexivity.
Qed.

Lemma extract_args_bad_token acc pre arg post :
  length (split ":"%char arg) <> 2 ->
  extract_args_loop acc (pre ++ arg :: post) = Err ValueError.
Proof.
  intro H. revert acc. induction pre as [|a pre IH]; intro acc; simpl.
  - destruct (split ":"%char arg) as [|k [|v [|x r]]]; simpl in H; auto; lia.
  - destruct (split ":"%char a) as [|k [|v [|x r]]]; auto.
Qed.

Definition od_fold (kvs : list (str * str)) (acc : list (str * str)) :=
  fold_left (fun d kv => od_set (fst kv) (snd kv) d) kvs acc.

Lemma extract_args_tokens acc kvs :
  (forall kv, In kv kvs -> ~ In ":"%char (fst kv) /\ ~ In ":"%char (snd kv)) ->
  extract_args_loop acc (map arg_token kvs) = Ok (od_fold kvs acc).
Proof.
  revert acc. induction kvs as [|[k v] kvs IH]; intros acc H; simpl; auto.
  destruct (H (k, v) (or_introl eq_refl)) as [Hk Hv].
  rewrite split_token by auto. apply IH. intros; apply H; right; auto.
Qed.

Lemma keys_od_set k v d :
  map fst (od_set k v d) =
  if existsb (str_eqb k) (map fst d) then map fst d else map fst d ++ [k].
Proof.
  induction d as [|[k' v'] d IH]; simpl; auto.
  destruct (str_eqb k k') eqn:E; simpl.
  - apply str_eqb_eq in E. subst. reflexivity.
  - rewrite IH. destruct (existsb (str_eqb k) (map fst d)); reflexivity.
Qed.

Lemma assoc_od_set k' k v d :
  assoc k' (od_set k v d) = if str_eqb k' k then Some v else assoc k' d.
Proof.
  induction d as [|[k1 v1] d IH]; simpl.
  - reflexivity.
  - destruct (str_eqb k k1) eqn:E; simpl.
    + apply str_eqb_eq in E. subst. destruct (str_eqb k' k1); reflexivity.
    + rewrite IH. destruct (str_eqb k' k) eqn:E1, (str_eqb k' k1) eqn:E2; auto.
      apply str_eqb_eq in E1, E2. subst. rewrite str_eqb_refl in E. discriminate.
Qed.

Lemma assoc_app k l1 l2 :
  assoc k (l1 ++ l2) = match assoc k l1 with Some v => Some v | None => assoc k l2 end.
Proof.
  induction l1 as [|[k1 v1] l1 IH]; simpl; auto.
  destruct (str_eqb k k1); auto.
Qed.

Lemma nodup_first_from_ext s s' l :
  (forall x, existsb (str_eqb x) s = existsb (str_eqb x) s') ->
  nodup_first_from s l = nodup_first_from s' l.
Proof.
  revert s s'. induction l as [|k l IH]; intros s s' H; simpl; auto.
  rewrite H. destruct (existsb (str_eqb k) s'); [apply IH; auto|].
  f_equal. apply IH. intro x. simpl. rewrite H. reflexivity.
Qed.

Lemma keys_od_fold kvs acc :
  map fst (od_fold kvs acc) = map fst acc ++ nodup_first_from (map fst acc) (map fst kvs).
Proof.
  unfold od_fold.
  revert acc. induction kvs as [|[k v] kvs IH]; intro acc; simpl.
  - rewrite app_nil_r. reflexivity.
  - rewrite IH, keys_od_set.
    destruct (existsb (str_eqb k) (map fst acc)) eqn:E; [reflexivity|].
    rewrite <- app_assoc. simpl. f_equal. f_equal.
    apply nodup_first_from_ext. intro x.
    rewrite existsb_app. simpl. rewrite orb_false_r, orb_comm. reflexivity.
Qed.

Lemma assoc_od_fold k kvs acc :
  assoc k (od_fold kvs acc) =
  match assoc k (rev kvs) with Some v => Some v | None => assoc k acc end.
Proof.
  unfold od_fold.
  revert acc. induction kvs as [|[k1 v1] kvs IH]; intro acc; simpl; auto.
  rewrite IH, assoc_app, assoc_od_set. simpl.
  destruct (assoc k (rev kvs)); auto.
  destruct (str_eqb k k1); reflexivity.
Qed.

End ArgFacts.

(** ** Facts about start lines *)
Module LineFacts.
Import Py Kigen Props Facts.

Lemma format_start a b :
  format (s2l "{} KIGEN_start {}") [a; b] = a ++ s2l " KIGEN_start " ++ b.
Proof. simpl. rewrite app_nil_r. reflexivity. Qed.

Lemma format_end a : format (s2l "{} KIGEN_end") [a] = a ++ s2l " KIGEN_end".
Proof. reflexivity. Qed.

Lemma format_one a : format (s2l "{}") [a] = a.
Proof. simpl. apply app_nil_r. Qed.

Lemma format_kv k v : format (s2l "{}:{}") [k; v] = arg_token (k, v).
Proof. simpl. rewrite app_nil_r. reflexivity. Qed.

Lemma find_unfold p s :
  find p s = if is_prefix p s then Some 0
             else match s with [] => None | _ :: s' => option_map S (find p s') end.
Proof. destruct s; reflexivity. Qed.

Lemma find_cons p x s :
  find p (x :: s) = if is_prefix p (x :: s) then Some 0 else option_map S (find p s).
Proof. reflexivity. Qed.

Lemma is_prefix_app p r : is_prefix p (p ++ r) = true.
Proof. induction p as [|a p IH]; simpl; auto. rewrite Ascii.eqb_refl. auto. Qed.

Lemma is_prefix_cut p w c r :
  ~ In c p -> is_prefix p (w ++ c :: r) = true -> is_prefix p w = true.
Proof.
  revert w. induction p as [|a p IH]; intros w Hc H; simpl; auto.
  destruct w as [|x w]; simpl in H.
  - apply andb_prop in H. destruct H as [H _]. apply Ascii.eqb_eq in H.
    subst. exfalso. apply Hc. left. reflexivity.
  - apply andb_prop in H. destruct H as [H1 H2]. rewrite H1. simpl.
    apply IH; auto. intro; apply Hc; right; auto.
Qed.

Lemma find_in_suffix p v w : is_prefix p w = true -> find p (v ++ w) <> None.
Proof.
  intro H. induction v as [|x v IH].
  - simpl. rewrite find_unfold, H. discriminate.
  - rewrite <- app_comm_cons, find_cons. destruct (is_prefix p (x :: v ++ w)); [discriminate|].
    destruct (find p (v ++ w)); simpl; [discriminate | contradiction].
Qed.

Lemma find_app p u s :
  (forall v w, u = v ++ w -> w <> [] -> is_prefix p (w ++ s) = false) ->
  find p (u ++ s) = option_map (Nat.add (length u)) (find p s).
Proof.
  induction u as [|x u IH]; intro H.
  - simpl. destruct (find p s); reflexivity.
  - rewrite <- app_comm_cons. assert (Hx : is_prefix p (x :: u ++ s) = false)
      by (apply (H [] (x :: u)); [reflexivity | discriminate]).
    rewrite find_cons, Hx, IH.
    + destruct (find p s); reflexivity.
    + intros v w E Hw. apply (H (x :: v) w); auto. rewrite E. reflexivity.
Qed.

Lemma space_not_in_marker : ~ In " "%char START_MARKER.
Proof. simpl. intuition discriminate. Qed.

Lemma find_start_marker P R :
  contains START_MARKER P = false ->
  find START_MARKER (P ++ s2l " KIGEN_start " ++ R) = Some (S (length P)).
Proof.
  intro HP.
  change (s2l " KIGEN_start " ++ R) with ([" "%char] ++ START_MARKER ++ " "%char :: R).
  rewrite app_assoc, find_app.
  - rewrite find_unfold, is_prefix_app, length_app. simpl. f_equal. lia.
  - intros v w E Hw. apply not_true_is_false. intro Hp.
    destruct (exists_last Hw) as (w' & y & ->).
    rewrite app_assoc in E. apply app_inj_tail in E. destruct E as [E <-].
    rewrite <- app_assoc in Hp.
    apply is_prefix_cut in Hp; [|exact space_not_in_marker].
    apply (find_in_suffix _ v) in Hp. rewrite <- E in Hp.
    unfold contains in HP. destruct (find START_MARKER P); congruence.
Qed.

Lemma firstn_len_app {A} (X Y : list A) : firstn (length X) (X ++ Y) = X.
Proof. induction X as [|x X IH]; simpl; f_equal; auto. Qed.

Lemma skipn_len_app {A} (X Y : list A) : skipn (length X) (X ++ Y) = Y.
Proof. induction X as [|x X IH]; simpl; auto. Qed.

Lemma rstrip_keep u y : is_space y = false -> rstrip (u ++ [y]) = u ++ [y].
Proof.
  intro H. unfold rstrip. rewrite rev_unit. simpl. rewrite H.
  simpl. rewrite rev_involutive. reflexivity.
Qed.

Lemma rstrip_space P : rstrip (P ++ [" "%char]) = rstrip P.
Proof. unfold rstrip. rewrite rev_unit. reflexivity. Qed.

Lemma strip_keep f X :
  is_space f = false -> ends_solid (f :: X) -> strip (f :: X) = f :: X.
Proof.
  intros Hf (u & y & E & Hy). unfold strip. rewrite E, rstrip_keep by auto.
  rewrite <- E. simpl. rewrite Hf. reflexivity.
Qed.

Lemma args_text_cons kv kvs :
  args_text (kv :: kvs) = (" "%char :: arg_token kv) ++ args_text kvs.
Proof. reflexivity. Qed.

Lemma split_args F kvs :
  ~ In " "%char F ->
  (forall kv, In kv kvs -> ~ In " "%char (fst kv ++ snd kv)) ->
  split " "%char (F ++ args_text kvs) = F :: map arg_token kvs.
Proof.
  unfold split. revert F. induction kvs as [|[k v] kvs IH]; intros F HF H.
  - unfold args_text; simpl. rewrite app_nil_r, split_aux_none; auto.
  - rewrite args_text_cons. cbn [app].
    rewrite split_aux_app by auto. cbn [app map]. f_equal. apply IH.
    + unfold arg_token; simpl. intro Hin.
      apply (H (k, v) (or_introl eq_refl)). simpl.
      apply in_app_or in Hin. apply in_or_app.
      destruct Hin as [Hin | [E | Hin]]; auto; discriminate.
    + intros kv Hin. apply H. right. exact Hin.
Qed.

Lemma od_fold_distinct kvs acc :
  NoDup (map fst acc ++ map fst kvs) -> ArgFacts.od_fold kvs acc = acc ++ kvs.
Proof.
  unfold ArgFacts.od_fold.
  revert acc. induction kvs as [|[k v] kvs IH]; intros acc H; simpl.
  - rewrite app_nil_r. reflexivity.
  - assert (Hk : ~ In k (map fst acc)).
    { intro Hin. apply NoDup_remove_2 in H. apply H. apply in_or_app. left. auto. }
    assert (Hset : od_set k v acc = acc ++ [(k, v)]).
    { clear -Hk. induction acc as [|[k' v'] acc IHa]; simpl; auto.
      rewrite str_eqb_neq by (intro E; subst; apply Hk; left; reflexivity).
      rewrite IHa; auto. intro; apply Hk; right; auto. }
    rewrite Hset, IH, <- app_assoc; auto.
    rewrite map_app, <- app_assoc. exact H.
Qed.

Lemma join_args F kvs :
  join (s2l " ") (F :: map arg_token kvs) = F ++ args_text kvs.
Proof.
  revert F. induction kvs as [|kv kvs IH]; intro F.
  - unfold args_text; simpl. rewrite app_nil_r. reflexivity.
  - rewrite args_text_cons. cbn [map]. rewrite join_cons by discriminate.
    rewrite IH. reflexivity.
Qed.

Lemma strip_canonical X :
  (exists f X', X = f :: X' /\ is_space f = false) -> ends_solid X ->
  strip X = X /\ strip (" "%char :: X) = X.
Proof.
  intros (f & X' & -> & Hf) Hend. split.
  - apply strip_keep; auto.
  - destruct Hend as (u & y & E & Hy). unfold strip.
    change (" "%char :: f :: X') with ([" "%char] ++ f :: X').
    rewrite E, app_assoc, rstrip_keep by auto.
    rewrite <- app_assoc, <- E. simpl. rewrite Hf. reflexivity.
Qed.

End LineFacts.

(** ** Facts about splitting and recombining *)
Module RecombineFacts.
Import Py Kigen Props Facts ScanFacts.

Lemma start_ne_end b : block_to_start_string b <> block_to_end_string b.
Proof.
  unfold block_to_start_string, block_to_end_string.
  rewrite LineFacts.format_start, LineFacts.format_end.
  intro E. apply app_inv_head in E. discriminate.
Qed.

Lemma next_free_after L lo bs : spans_from L lo bs -> lo <= next_free lo bs.
Proof.
  revert lo. induction bs as [|b bs IH]; intros lo H; simpl in *; [lia|].
  destruct H as [(H1 & H2 & _) H3]. apply IH in H3. lia.
Qed.

Lemma next_free_bound L lo bs :
  spans_from L lo bs -> bs <> [] -> next_free lo bs <= length L.
Proof.
  revert lo. induction bs as [|b bs IH]; intros lo H Hne; simpl in *; [congruence|].
  destruct H as [(H1 & H2 & H3 & _) H4].
  destruct bs as [|b' bs]; [simpl; lia|]. apply IH; auto. discriminate.
Qed.

Lemma identity_render_slice L lo b :
  span_ok L lo b ->
  nth (start b) L [] = block_to_start_string b ->
  nth (end_ b) L [] = block_to_end_string b ->
  identity_render L b = join [LF] (slice L (start b) (S (end_ b))).
Proof.
  intros (H1 & H2 & H3 & _) Hs He.
  assert (Hlt : start b < end_ b).
  { destruct (Nat.eq_dec (start b) (end_ b)) as [E|]; [|lia].
    exfalso. apply (start_ne_end b). rewrite <- Hs, <- He, E. reflexivity. }
  rewrite <- (slice_app L (start b) (S (start b)) (S (end_ b))) by lia.
  rewrite <- (slice_app L (S (start b)) (end_ b) (S (end_ b))) by lia.
  rewrite (slice_single L (start b) []) by lia.
  rewrite (slice_single L (end_ b) []) by lia.
  rewrite Hs, He. reflexivity.
Qed.

Lemma split_loop_nonempty L idx bs : bs <> [] -> split_loop L idx bs <> [].
Proof. destruct bs; simpl; congruence. Qed.

Lemma recombine_loop L idx bs :
  bs <> [] -> spans_from L idx bs -> gaps_nonempty idx bs -> canonical_markers L bs ->
  join [LF] (flat_map (fun cb => [fst cb; snd cb])
               (combine (split_loop L idx bs) (map (identity_render L) bs)))
  = join [LF] (slice L idx (next_free idx bs)).
Proof.
  revert idx. induction bs as [|b bs IH]; intros idx Hne Hsp Hgap Hcan; [congruence|].
  destruct Hsp as [Hb Hsp]. destruct Hgap as [Hg Hgap].
  assert (Hcb := Hcan b (or_introl eq_refl)). destruct Hcb as [Hs He].
  assert (Hcan' : canonical_markers L bs) by (intros b' Hin; apply Hcan; right; auto).
  pose proof Hb as (B1 & B2 & B3 & _).
  assert (Hlt : start b < end_ b).
  { destruct (Nat.eq_dec (start b) (end_ b)) as [E|]; [|lia].
    exfalso. apply (start_ne_end b). rewrite <- Hs, <- He, E. reflexivity. }
  cbn [split_loop map combine flat_map next_free fst snd app].
  replace (end_ b + 1) with (S (end_ b)) by lia.
  rewrite (identity_render_slice L idx b) by auto.
  assert (NA : slice L idx (start b) <> []) by (apply slice_nonempty; lia).
  assert (NB : slice L (start b) (S (end_ b)) <> []) by (apply slice_nonempty; lia).
  destruct bs as [|b' bs].
  - cbn [split_loop map combine flat_map next_free].
    rewrite join_cons by discriminate. cbn [join].
    rewrite <- join_app by auto. rewrite slice_app by lia. reflexivity.
  - assert (Hn1 : S (end_ b) < next_free (S (end_ b)) (b' :: bs)).
    { destruct Hsp as [(C1 & C2 & _) Hsp']. simpl in Hgap.
      apply next_free_after in Hsp'. simpl. lia. }
    assert (Hn2 : next_free (S (end_ b)) (b' :: bs) <= length L)
      by (apply (next_free_bound L); auto; discriminate).
    assert (NC : slice L (S (end_ b)) (next_free (S (end_ b)) (b' :: bs)) <> [])
      by (apply slice_nonempty; lia).
    rewrite join_cons by (cbn [split_loop map combine flat_map app]; discriminate).
    rewrite join_cons by (cbn [split_loop map combine flat_map app]; discriminate).
    rewrite IH by (auto; discriminate).
    rewrite <- (slice_app L idx (start b) (next_free (S (end_ b)) (b' :: bs))) by lia.
    rewrite <- (slice_app L (start b) (S (end_ b)) (next_free (S (end_ b)) (b' :: bs))) by lia.
    rewrite join_app by (auto; intro E; apply app_eq_nil in E; tauto).
    rewrite join_app by auto. reflexivity.
Qed.

End RecombineFacts.

(** ** The claims *)
Module Claims.
Import Py Kigen Props Fixtures Facts.

(** C1 (code defect). [split_file_at_blocks] returns one chunk per block,
    never the chunk after the last block: a text without blocks gives no
    chunk at all, and the line [B] after the only block of
    [A / start f / end / B] is in no chunk. *)
Theorem split_file_at_blocks_drops_last_chunk :
  (forall t bs, length (split_file_at_blocks t bs) = length bs) /\
  extract_blocks (s2l "A") = Ok [] /\
  split_file_at_blocks (s2l "A") [] = [] /\
  extract_blocks text_A_block_B = Ok [block_f] /\
  split_file_at_blocks text_A_block_B [block_f] = [s2l "A"].
Proof.
  split; [| vm_compute; repeat split].
  intros t bs. unfold split_file_at_blocks.
  generalize 0. induction bs as [| b bs IH]; intro i; simpl; auto.
Qed.

(** C2 (code defect). [recombine] zips chunks with blocks, so with two
    chunks and one block the last chunk is dropped: [A], [X], [B] gives
    [A\nX], not [A\nX\nB]; a single chunk with no block gives the empty
    string. *)
Theorem recombine_drops_last_chunk :
  recombine [s2l "A"; s2l "B"] [s2l "X"] = s2l "A" ++ [LF] ++ s2l "X" /\
  recombine [s2l "A"] [] = [].
Proof. split; reflexivity. Qed.

(** C8 (code defect). With one module [foo] loaded from directory [mods],
    rendering a block that calls [bar] raises [UnknownExpansionModule]
    whose message names [bar] but lists no directory: the directory list
    is formatted with ['\n'.format(...)], which has no replacement field. *)
Theorem render_block_unknown_lists_no_directory :
  forall expand_template : str -> list (str * str) -> str,
  render_block expand_template (mkBlock 0 1 (mkCmd (s2l "bar") []) (s2l "#"))
    [(s2l "foo", module_foo)] =
  Err (UnknownExpansionModule
         (s2l "Expansion module `bar` not found in any of the following directories: "
          ++ [LF])) /\
  contains (s2l "mods")
    (s2l "Expansion module `bar` not found in any of the following directories: "
     ++ [LF]) = false.
Proof. intros. split; reflexivity. Qed.

(** C3 counterexample. For the text [# KIGEN_start f / # KIGEN_end], whose
    marker lines are already canonical, recombining its chunks with the
    identity rendering of its block gives the text with an extra leading
    newline: the empty first chunk is still joined with a newline. *)
Lemma identity_recombine_counterexample :
  extract_blocks text_block_only = Ok [mkBlock 0 1 (mkCmd (s2l "f") []) (s2l "#")] /\
  recombine (split_file_at_blocks text_block_only
               [mkBlock 0 1 (mkCmd (s2l "f") []) (s2l "#")])
            (map (identity_render (splitlines text_block_only))
               [mkBlock 0 1 (mkCmd (s2l "f") []) (s2l "#")])
  = LF :: text_block_only /\
  LF :: text_block_only <> text_block_only.
Proof.
  split; [vm_compute; reflexivity|]. split; [vm_compute; reflexivity|].
  intro H. apply (f_equal (@length ascii)) in H. simpl in H. lia.
Qed.

(** C4 counterexample. The start line [#KIGEN_start f] (no space before the
    marker) has no argument at all, yet is reconstructed as
    [# KIGEN_start f]. *)
Lemma start_round_trip_counterexample :
  extract_command (s2l "#KIGEN_start f") = Ok (s2l "#", mkCmd (s2l "f") []) /\
  block_to_start_string (mkBlock 0 1 (mkCmd (s2l "f") []) (s2l "#"))
  = s2l "# KIGEN_start f" /\
  s2l "# KIGEN_start f" <> s2l "#KIGEN_start f".
Proof. split; [reflexivity|]. split; [reflexivity|]. discriminate. Qed.

(** C5 counterexample. The line [// KIGEN_end KIGEN_start f] contains the
    end marker and is reached outside any block, yet no
    [DanglingBlockEnd] is raised: the start marker on the same line is
    handled first and the line forms a one-line block. *)
Lemma dangling_end_counterexample :
  contains STOP_MARKER (s2l "// KIGEN_end KIGEN_start f") = true /\
  extract_blocks (s2l "// KIGEN_end KIGEN_start f") =
  Ok [mkBlock 0 0 (mkCmd (s2l "f") []) (s2l "// KIGEN_end")].
Proof. split; vm_compute; reflexivity. Qed.

(** C6 counterexample. The line [KIGEN_start f a:KIGEN_end] yields a block
    whose start line equals its end line. *)
Lemma one_line_block_counterexample :
  extract_blocks (s2l "KIGEN_start f a:KIGEN_end") =
  Ok [mkBlock 0 0 (mkCmd (s2l "f") [(s2l "a", s2l "KIGEN_end")]) []].
Proof. vm_compute. reflexivity. Qed.

(** C7 counterexample. The token [a:b:c] is not split at its first colon:
    [k, v = arg.split(':')] raises [ValueError]. *)
Lemma two_colons_counterexample :
  extract_args [s2l "a:b:c"] = Err ValueError.
Proof. reflexivity. Qed.

(** C5 (amended). The scan fails with [NestedBlockError] exactly when it
    reaches a line carrying the start marker while a block is open, and
    with [DanglingBlockEnd] exactly when it reaches, outside any block, a
    line carrying the end marker but not the start marker; the error
    carries the line number, and no block list. *)
Theorem scanner_errors_exact : forall t,
  (forall i j, extract_blocks t = Err (NestedBlockError i j) <->
     exists pre l post st, splitlines t = pre ++ l :: post /\
       scan_lines init_state 0 pre = Ok st /\ st_in_block st = true /\
       contains START_MARKER l = true /\
       i = length pre /\ j = st_block_start st) /\
  (forall i, extract_blocks t = Err (DanglingBlockEnd i) <->
     exists pre l post st, splitlines t = pre ++ l :: post /\
       scan_lines init_state 0 pre = Ok st /\ st_in_block st = false /\
       contains STOP_MARKER l = true /\ contains START_MARKER l = false /\
       i = length pre).
Proof.
  intro t.
  assert (Hlift : forall e, extract_blocks t = Err e <->
                            scan_lines init_state 0 (splitlines t) = Err e).
  { intro e. unfold extract_blocks.
    destruct (scan_lines init_state 0 (splitlines t)); simpl; split; congruence. }
  split.
  - intros i j. rewrite Hlift, ScanFacts.scan_lines_err. split.
    + intros (pre & l & post & st & E & Hpre & Hl).
      apply ScanFacts.scan_line_nested in Hl. destruct Hl as (H1 & H2 & H3 & H4).
      exists pre, l, post, st. repeat split; auto.
    + intros (pre & l & post & st & E & Hpre & H1 & H2 & H3 & H4).
      exists pre, l, post, st. repeat split; auto.
      apply ScanFacts.scan_line_nested. repeat split; auto.
  - intro i. rewrite Hlift, ScanFacts.scan_lines_err. split.
    + intros (pre & l & post & st & E & Hpre & Hl).
      apply ScanFacts.scan_line_dangling in Hl. destruct Hl as (H1 & H2 & H3 & H4).
      exists pre, l, post, st. repeat split; auto.
    + intros (pre & l & post & st & E & Hpre & H1 & H2 & H3 & H4).
      exists pre, l, post, st. repeat split; auto.
      apply ScanFacts.scan_line_dangling. repeat split; auto.
Qed.

(** C6 (amended). On success the blocks are in line order and do not
    overlap: each one starts after the previous one ends, starts no later
    than it ends, and is a one-line block (start = end) exactly when its
    start line also carries the end marker. *)
Theorem extract_blocks_ordered : forall t bs,
  extract_blocks t = Ok bs -> spans_from (splitlines t) 0 bs.
Proof. intros t bs H. exact (ScanFacts.extract_blocks_spans t bs H). Qed.

Lemma extract_blocks_ordered_witness :
  extract_blocks (test_block) = Ok test_block_blocks /\
  spans_from (splitlines test_block) 0 test_block_blocks.
Proof.
  split; [vm_compute; reflexivity|].
  apply extract_blocks_ordered. vm_compute. reflexivity.
Defined.

(** C10. Suppose the scan reaches a start line while outside any block,
    the start line has no end token and parses, and no later line carries
    either marker token. Then the text is scanned without error, and the
    result is just the blocks completed before that start line: the
    unterminated block is dropped. *)
Theorem unterminated_block_dropped : forall t pre l post st,
  splitlines t = pre ++ l :: post ->
  scan_lines init_state 0 pre = Ok st ->
  st_in_block st = false ->
  contains START_MARKER l = true ->
  contains STOP_MARKER l = false ->
  (exists r, extract_command l = Ok r) ->
  (forall x, In x post ->
     contains START_MARKER x = false /\ contains STOP_MARKER x = false) ->
  extract_blocks t = Ok (st_result st).
Proof.
  intros t pre l post st Ht Hpre Hi Hs Hst [[cm cmd] Hc] Hpost.
  unfold extract_blocks. rewrite Ht, ScanFacts.scan_lines_app, Hpre. simpl.
  unfold scan_line at 1. rewrite Hs, Hi, Hc. simpl. rewrite Hst. simpl.
  rewrite ScanFacts.scan_lines_quiet by exact Hpost. reflexivity.
Qed.

Lemma unterminated_block_dropped_witness :
  extract_blocks text_unterminated = Ok [block_f] /\
  splitlines text_unterminated =
    [s2l "A"; s2l "# KIGEN_start f"; s2l "# KIGEN_end"] ++
    s2l "// KIGEN_start g" :: [s2l "tail"].
Proof.
  split; [|vm_compute; reflexivity].
  apply (unterminated_block_dropped text_unterminated
           [s2l "A"; s2l "# KIGEN_start f"; s2l "# KIGEN_end"]
           (s2l "// KIGEN_start g") [s2l "tail"]
           (mkState [block_f] false 1 (mkCmd (s2l "f") []) (s2l "#"))).
  - vm_compute. reflexivity.
  - vm_compute. reflexivity.
  - reflexivity.
  - vm_compute. reflexivity.
  - vm_compute. reflexivity.
  - eexists. vm_compute. reflexivity.
  - intros x [<-|[]]. split; vm_compute; reflexivity.
Defined.

(** C7 (amended). A token with exactly one colon is split at it into key
    and value; a token with no colon or with more than one colon makes
    [extract_args] raise [ValueError], wherever it stands in the list. *)
Theorem extract_args_token_split : forall arg,
  (count_occ ascii_dec arg ":"%char <> 1 ->
     forall pre post, extract_args (pre ++ arg :: post) = Err ValueError) /\
  (count_occ ascii_dec arg ":"%char = 1 ->
     exists k v, arg = k ++ ":"%char :: v /\ ~ In ":"%char k /\ ~ In ":"%char v /\
       extract_args [arg] = Ok [(k, v)]).
Proof.
  intro arg. split.
  - intros H pre post. apply ArgFacts.extract_args_bad_token.
    unfold split. rewrite split_length. lia.
  - intro H. destruct (count_one_decompose _ _ H) as (k & v & -> & Hk & Hv).
    exists k, v. repeat split; auto.
    unfold extract_args. simpl.
    change (k ++ ":"%char :: v) with (arg_token (k, v)).
    rewrite ArgFacts.split_token by auto. reflexivity.
Qed.

Lemma extract_args_token_split_witness :
  extract_args ([s2l "a:1"] ++ s2l "a:b:c" :: []) = Err ValueError /\
  extract_args [s2l "key:value"] = Ok [(s2l "key", s2l "value")].
Proof.
  split.
  - apply (proj1 (extract_args_token_split (s2l "a:b:c"))). vm_compute. discriminate.
  - destruct (proj2 (extract_args_token_split (s2l "key:value")) eq_refl)
      as (k & v & E & _ & _ & H).
    vm_compute. reflexivity.
Defined.

(** C9. Well-formed [key:value] tokens never make [extract_args] fail; a
    repeated key keeps the position of its first occurrence and the value
    of its last one. *)
Theorem extract_args_last_wins : forall kvs,
  (forall kv, In kv kvs -> ~ In ":"%char (fst kv) /\ ~ In ":"%char (snd kv)) ->
  exists d, extract_args (map arg_token kvs) = Ok d /\
    map fst d = nodup_first (map fst kvs) /\
    forall k, assoc k d = assoc k (rev kvs).
Proof.
  intros kvs H. exists (ArgFacts.od_fold kvs []). split; [|split].
  - apply ArgFacts.extract_args_tokens. exact H.
  - rewrite ArgFacts.keys_od_fold. reflexivity.
  - intro k. rewrite ArgFacts.assoc_od_fold. destruct (assoc k (rev kvs)); reflexivity.
Qed.

Lemma extract_args_last_wins_witness :
  extract_args (map arg_token repeated_args) =
    Ok [(s2l "a", s2l "3"); (s2l "b", s2l "2")] /\
  nodup_first (map fst repeated_args) = [s2l "a"; s2l "b"] /\
  assoc (s2l "a") (rev repeated_args) = Some (s2l "3").
Proof.
  destruct (extract_args_last_wins repeated_args) as (d & H1 & H2 & H3).
  - intros kv Hin. simpl in Hin.
    repeat destruct Hin as [<-|Hin]; try destruct Hin; vm_compute; split; intros [E|[]]; discriminate.
  - rewrite H1. vm_compute in H1. injection H1 as <-. vm_compute. repeat split.
Defined.

(** C4 (amended). A start line of the canonical shape
    [<prefix> KIGEN_start <function> <k1:v1> ... <kn:vn>] (single spaces
    between the tokens, a prefix with no surrounding whitespace and no
    start marker, a function name that is non-empty, has no space and does
    not begin with whitespace, keys and values without space or colon, no
    whitespace at the end of the line, pairwise distinct keys) is parsed
    into exactly that prefix and the command with that function and those
    arguments in that order, and reconstructed byte for byte. *)
Theorem start_line_round_trip : forall P F kvs,
  strip P = P -> contains START_MARKER P = false ->
  (exists f F', F = f :: F' /\ is_space f = false) -> ~ In " "%char F ->
  (forall kv, In kv kvs ->
     ~ In " "%char (fst kv ++ snd kv) /\ ~ In ":"%char (fst kv ++ snd kv)) ->
  ends_solid (F ++ args_text kvs) ->
  NoDup (map fst kvs) ->
  extract_command (P ++ s2l " KIGEN_start " ++ F ++ args_text kvs) = Ok (P, mkCmd F kvs) /\
  block_to_start_string (mkBlock 0 1 (mkCmd F kvs) P) =
    P ++ s2l " KIGEN_start " ++ F ++ args_text kvs.
Proof.
  intros P F kvs HP HPs HF HFs Hkv Hend Hnd.
  assert (HF2 : exists f X', F ++ args_text kvs = f :: X' /\ is_space f = false)
    by (destruct HF as (f & F' & -> & Hf); exists f, (F' ++ args_text kvs); auto).
  destruct (LineFacts.strip_canonical _ HF2 Hend) as [Hs1 Hs2].
  split.
  - assert (Hsplit : split_marker (P ++ s2l " KIGEN_start " ++ F ++ args_text kvs)
                     = Ok (P, F ++ args_text kvs)).
    { unfold split_marker. rewrite LineFacts.find_start_marker by auto.
      f_equal. f_equal.
      - change (P ++ s2l " KIGEN_start " ++ F ++ args_text kvs)
          with (P ++ [" "%char] ++ (START_MARKER ++ " "%char :: F ++ args_text kvs)).
        replace (S (length P)) with (length (P ++ [" "%char]))
          by (rewrite length_app; simpl; lia).
        rewrite app_assoc, LineFacts.firstn_len_app.
        unfold strip. rewrite LineFacts.rstrip_space. exact HP.
      - change (P ++ s2l " KIGEN_start " ++ F ++ args_text kvs)
          with (P ++ (" "%char :: START_MARKER) ++ (" "%char :: F ++ args_text kvs)).
        rewrite app_assoc.
        replace (S (length P) + List.length START_MARKER)
          with (length (P ++ " "%char :: START_MARKER))
          by (rewrite length_app; simpl; lia).
        rewrite LineFacts.skipn_len_app. exact Hs2. }
    unfold extract_command. rewrite Hsplit. unfold bind. cbv beta iota.
    rewrite Hs1, LineFacts.split_args;
      [| exact HFs | intros kv Hin; exact (proj1 (Hkv kv Hin))].
    unfold extract_args.
    rewrite ArgFacts.extract_args_tokens, LineFacts.od_fold_distinct; [reflexivity | exact Hnd |].
    intros kv Hin. destruct (Hkv kv Hin) as [_ Hc]. split; intro H.
    + apply Hc. apply in_or_app. left. exact H.
    + apply Hc. apply in_or_app. right. exact H.
  - unfold block_to_start_string, command_to_cmdstr. cbn [commentmark command function args].
    rewrite LineFacts.format_start, LineFacts.format_one.
    rewrite (map_ext _ arg_token) by (intros [k v]; apply LineFacts.format_kv).
    change ([F] ++ map arg_token kvs) with (F :: map arg_token kvs).
    rewrite LineFacts.join_args. reflexivity.
Qed.

(** The line [# KIGEN_start f<TAB>g k:b<TAB>c], whose function name and
    argument value hold a tab. *)
Lemma start_line_round_trip_witness :
  extract_command (s2l "#" ++ s2l " KIGEN_start " ++ (s2l "f" ++ [TAB] ++ s2l "g")
                   ++ args_text [(s2l "k", s2l "b" ++ [TAB] ++ s2l "c")])
  = Ok (s2l "#", mkCmd (s2l "f" ++ [TAB] ++ s2l "g") [(s2l "k", s2l "b" ++ [TAB] ++ s2l "c")]) /\
  block_to_start_string
    (mkBlock 0 1 (mkCmd (s2l "f" ++ [TAB] ++ s2l "g") [(s2l "k", s2l "b" ++ [TAB] ++ s2l "c")])
       (s2l "#")) =
    s2l "#" ++ s2l " KIGEN_start " ++ (s2l "f" ++ [TAB] ++ s2l "g")
    ++ args_text [(s2l "k", s2l "b" ++ [TAB] ++ s2l "c")].
Proof.
  apply start_line_round_trip.
  - vm_compute. reflexivity.
  - vm_compute. reflexivity.
  - eexists; eexists; split; [reflexivity|]. vm_compute. reflexivity.
  - vm_compute. intuition discriminate.
  - intros kv [<-|[]]. vm_compute. split; intuition discriminate.
  - exists (s2l "f" ++ [TAB] ++ s2l "g k:b" ++ [TAB]), "c"%char. split; [reflexivity|].
    vm_compute. reflexivity.
  - repeat constructor. intros [].
Defined.

(** C3 (amended). Identity rendering recombines to the original text when
    every block is preceded by at least one line outside any block, the
    last block ends on the last line, every start and end line already has
    its reconstructed form, and the text uses only newlines as line breaks
    and does not end with one. *)
Theorem identity_render_recombine : forall t bs,
  extract_blocks t = Ok bs ->
  bs <> [] ->
  gaps_nonempty 0 bs ->
  next_free 0 bs = length (splitlines t) ->
  canonical_markers (splitlines t) bs ->
  plain_lf_text t ->
  recombine (split_file_at_blocks t bs) (map (identity_render (splitlines t)) bs) = t.
Proof.
  intros t bs Hx Hne Hgap Hlast Hcan Hplain.
  unfold recombine, split_file_at_blocks.
  rewrite RecombineFacts.recombine_loop; auto.
  - rewrite Hlast. unfold slice. rewrite Nat.sub_0_r, firstn_all.
    apply join_splitlines. exact Hplain.
  - apply ScanFacts.extract_blocks_spans. exact Hx.
Qed.

Lemma identity_render_recombine_witness :
  recombine (split_file_at_blocks text_lead_block [block_f])
            (map (identity_render (splitlines text_lead_block)) [block_f])
  = text_lead_block.
Proof.
  apply identity_render_recombine.
  - vm_compute. reflexivity.
  - discriminate.
  - simpl. lia.
  - vm_compute. reflexivity.
  - intros b [<-|[]]. split; vm_compute; reflexivity.
  - split.
    + intros c Hc Hb. vm_compute in Hc.
      repeat destruct Hc as [<-|Hc]; try destruct Hc; try discriminate; reflexivity.
    + intros u E. apply (f_equal (@rev ascii)) in E. rewrite rev_unit in E.
      vm_compute in E. discriminate.
Defined.

End Claims.

(** ** Paths and module discovery *)
Module PathFacts.
Import Py Kigen KigenIO Facts.

Lemma rfind_none c s : ~ In c s -> rfind c s = None.
Proof.
  induction s as [|x s IH]; intro H; simpl; auto.
  rewrite IH by (intro; apply H; right; auto).
  destruct (Ascii.eqb_spec x c); [subst; exfalso; apply H; left; auto|auto].
Qed.

Lemma rfind_app c a b :
  rfind c (a ++ b) =
  match rfind c b with Some i => Some (length a + i) | None => rfind c a end.
Proof.
  induction a as [|x a IH]; simpl.
  - destruct (rfind c b); auto.
  - rewrite IH. destruct (rfind c b); auto.
Qed.

Lemma rfind_here c e : ~ In c e -> rfind c (c :: e) = Some 0.
Proof. intro H. simpl. rewrite rfind_none by auto. rewrite Ascii.eqb_refl. auto. Qed.

Lemma sep_ne_extsep : SEP <> EXTSEP.
Proof. discriminate. Qed.

(** The last component of [d ++ b], for a directory part [d] that is
    empty or ends with a slash. *)
Lemma basename_under d b :
  (d = [] \/ exists d', d = d' ++ [SEP]) -> ~ In SEP b -> basename (d ++ b) = b.
Proof.
  intros [->|[d' ->]] Hb; unfold basename.
  - simpl. rewrite rfind_none by auto. auto.
  - rewrite rfind_app, (rfind_none _ b Hb), rfind_app, (rfind_here SEP []) by auto.
    rewrite <- app_assoc, Nat.add_0_r. simpl. clear.
    induction d' as [|y d' IH]; simpl; auto.
Qed.

Lemma splitext_stem n e :
  ~ In SEP n -> ~ In SEP e -> ~ In EXTSEP e ->
  splitext (n ++ EXTSEP :: e) =
  if existsb (fun c => negb (Ascii.eqb c EXTSEP)) n then (n, EXTSEP :: e)
  else (n ++ EXTSEP :: e, []).
Proof.
  intros Hn He He'. unfold splitext.
  rewrite (rfind_none SEP).
  2:{ rewrite in_app_iff. intros [H|[H|H]]; [exact (Hn H)|discriminate|exact (He H)]. }
  rewrite rfind_app, rfind_here by auto. rewrite Nat.add_0_r.
  unfold slice. rewrite Nat.sub_0_r. simpl skipn.
  rewrite firstn_app, Nat.sub_diag, firstn_all. simpl. rewrite app_nil_r.
  rewrite skipn_app, skipn_all, Nat.sub_diag. simpl.
  destruct (existsb _ n); reflexivity.
Qed.

Lemma existsb_non_dot n :
  existsb (fun c => negb (Ascii.eqb c EXTSEP)) n = true <-> exists c, In c n /\ c <> EXTSEP.
Proof.
  rewrite existsb_exists. split; intros [c [H1 H2]]; exists c; split; auto.
  - intro E; subst. rewrite Ascii.eqb_refl in H2. discriminate.
  - destruct (Ascii.eqb_spec c EXTSEP); auto.
Qed.

(** X1. For a directory part that is empty or ends with a slash, a stem [n]
    without slash that has a character other than a dot, and an extension
    [e] without slash or dot, [file_path_to_base] of [d ++ n ++ "." ++ e]
    is [n]. *)
Lemma file_path_to_base_stem d n e :
  (d = [] \/ exists d', d = d' ++ [SEP]) ->
  ~ In SEP n -> (exists c, In c n /\ c <> EXTSEP) ->
  ~ In SEP e -> ~ In EXTSEP e ->
  file_path_to_base (d ++ n ++ EXTSEP :: e) = n.
Proof.
  intros Hd Hn Hc He He'. unfold file_path_to_base.
  rewrite basename_under; auto.
  2:{ rewrite in_app_iff. intros [H|[H|H]]; [exact (Hn H)|discriminate|exact (He H)]. }
  rewrite splitext_stem by auto. apply existsb_non_dot in Hc. rewrite Hc. reflexivity.
Qed.

Lemma mem_In x l : mem x l = true <-> In x l.
Proof.
  unfold mem. rewrite existsb_exists. split.
  - intros [y [H1 H2]]. apply str_eqb_eq in H2. subst. auto.
  - intro H. exists x. split; auto. apply str_eqb_refl.
Qed.

Lemma dedup_In x l : In x (dedup l) <-> In x l.
Proof.
  induction l as [|y l IH]; simpl; [tauto|].
  destruct (mem y l) eqn:E.
  - apply mem_In in E. rewrite IH. split; [auto|intros [<-|H]; auto].
  - simpl. rewrite IH. tauto.
Qed.

Lemma dedup_NoDup l : NoDup (dedup l).
Proof.
  induction l as [|y l IH]; simpl; [constructor|].
  destruct (mem y l) eqn:E; auto.
  constructor; auto. rewrite dedup_In. intro H. apply mem_In in H. congruence.
Qed.

Lemma ends_with_app s p : ends_with s (p ++ s) = true.
Proof. unfold ends_with. rewrite rev_app_distr. apply LineFacts.is_prefix_app. Qed.

Lemma rfind_lt c s i : rfind c s = Some i -> i < length s.
Proof.
  revert i. induction s as [|x s IH]; intros i H; simpl in H; [discriminate|].
  destruct (rfind c s) as [j|] eqn:E.
  - injection H as <-. simpl. specialize (IH j eq_refl). lia.
  - destruct (Ascii.eqb x c); [injection H as <-; simpl; lia|discriminate].
Qed.

Lemma In_firstn_In {A} (x : A) n l : In x (firstn n l) -> In x l.
Proof. intro H. rewrite <- (firstn_skipn n l). apply in_or_app. auto. Qed.

(** X2. A file name whose dots all come first, such as [.bashrc] or [..],
    has no extension: [file_path_to_base] returns the whole last component. *)
Theorem file_path_to_base_dots d ds r :
  (d = [] \/ exists d', d = d' ++ [SEP]) ->
  Forall (eq EXTSEP) ds -> ~ In EXTSEP r -> ~ In SEP r ->
  file_path_to_base (d ++ ds ++ r) = ds ++ r.
Proof.
  intros Hd Hds Hr Hr'.
  assert (Hsep : ~ In SEP (ds ++ r)).
  { rewrite in_app_iff. intros [H|H]; [|exact (Hr' H)].
    rewrite Forall_forall in Hds. specialize (Hds _ H). discriminate. }
  unfold file_path_to_base. rewrite basename_under by auto.
  unfold splitext. rewrite (rfind_none SEP _ Hsep), rfind_app, (rfind_none EXTSEP r Hr).
  destruct (rfind EXTSEP ds) as [i|] eqn:E; [|reflexivity].
  apply rfind_lt in E.
  unfold slice. rewrite Nat.sub_0_r. simpl skipn.
  rewrite firstn_app. replace (i - length ds) with 0 by lia. rewrite firstn_O, app_nil_r.
  destruct (existsb _ (firstn i ds)) eqn:Ex; [|reflexivity].
  apply existsb_non_dot in Ex as (c & Hc & Hne).
  apply In_firstn_In in Hc. rewrite Forall_forall in Hds. specialize (Hds _ Hc). congruence.
Qed.

Lemma file_path_to_base_stem_witness :
  file_path_to_base (s2l "mods/foo.py") = s2l "foo".
Proof.
  apply (file_path_to_base_stem (s2l "mods/") (s2l "foo") (s2l "py")).
  - right. exists (s2l "mods"). reflexivity.
  - vm_compute. intuition discriminate.
  - exists "f"%char. split; [left; reflexivity|discriminate].
  - vm_compute. intuition discriminate.
  - vm_compute. intuition discriminate.
Defined.

Lemma file_path_to_base_dots_witness :
  file_path_to_base (s2l "mods/.bashrc") = s2l ".bashrc".
Proof.
  apply (file_path_to_base_dots (s2l "mods/") (s2l ".") (s2l "bashrc")).
  - right. exists (s2l "mods"). reflexivity.
  - repeat constructor.
  - vm_compute. intuition discriminate.
  - vm_compute. intuition discriminate.
Defined.

End PathFacts.

(** ** Module loading, writing and the main loop *)
Module HostFacts.
Import Py Kigen KigenIO HostProps Facts PathFacts.

Lemma bind_done {S A B} (m : M S A) (f : A -> M S B) st a st1 :
  m st = (Done a, st1) -> mbind m f st = f a st1.
Proof. intro H. unfold mbind. rewrite H. reflexivity. Qed.

Lemma bind_raised {S A B} (m : M S A) (f : A -> M S B) st e st1 :
  m st = (Raised e, st1) -> mbind m f st = (Raised e, st1).
Proof. intro H. unfold mbind. rewrite H. reflexivity. Qed.

Lemma dict_get_set {V} k k' (v : V) d :
  dict_get k (dict_set k' v d) = if str_eqb k k' then Some v else dict_get k d.
Proof.
  induction d as [|[a b] d IH]; simpl.
  - destruct (str_eqb k k'); auto.
  - destruct (str_eqb k' a) eqn:E1.
    + apply str_eqb_eq in E1; subst. simpl. destruct (str_eqb k a); auto.
    + simpl. destruct (str_eqb k a) eqn:E2; auto.
      apply str_eqb_eq in E2; subst. rewrite str_eqb_sym, E1. auto.
Qed.

Lemma In_dict_set {V} k k' (v m : V) d :
  In (k, m) (dict_set k' v d) -> (k = k' /\ m = v) \/ In (k, m) d.
Proof.
  induction d as [|[a b] d IH]; simpl.
  - intros [H|[]]. injection H as <- <-. auto.
  - destruct (str_eqb k' a) eqn:E; simpl.
    + intros [H|H]; [injection H as <- <-; auto|auto].
    + intros [H|H]; [auto|]. destruct (IH H); auto.
Qed.

Lemma keys_dict_set {V} k k' (v : V) d :
  In k (map fst (dict_set k' v d)) <-> k = k' \/ In k (map fst d).
Proof.
  induction d as [|[a b] d IH]; simpl; [intuition congruence|].
  destruct (str_eqb k' a) eqn:E; simpl.
  - apply str_eqb_eq in E; subst. intuition congruence.
  - rewrite IH. intuition congruence.
Qed.

Lemma dict_get_None {V} k (d : list (str * V)) :
  dict_get k d = None <-> ~ In k (map fst d).
Proof.
  induction d as [|[a b] d IH]; simpl; [tauto|].
  destruct (str_eqb k a) eqn:E.
  - apply str_eqb_eq in E; subst. split; [discriminate|tauto].
  - rewrite IH. split; [|tauto]. intros H [H'|H']; [|tauto]. subst.
    rewrite str_eqb_refl in E. discriminate.
Qed.

Lemma dict_set_NoDup {V} k (v : V) d :
  NoDup (map fst d) -> NoDup (map fst (dict_set k v d)).
Proof.
  induction d as [|[a b] d IH]; simpl; intro H.
  - constructor; [intros []|constructor].
  - inversion H as [|? ? Hn Hd]; subst.
    destruct (str_eqb k a) eqn:E; simpl.
    + apply str_eqb_eq in E; subst. constructor; auto.
    + constructor; auto. rewrite keys_dict_set. intros [H'|H']; [|auto].
      subst. rewrite str_eqb_refl in E. discriminate.
Qed.

Lemma merge_ok {PM DT} l res (st : io_state PM DT) r st' :
  merge_modules l res st = (Done r, st') ->
  st' = st /\ (NoDup (map fst res) -> NoDup (map fst r)) /\
  (forall k, In k (map fst res) \/ In k (map fst l) -> In k (map fst r)) /\
  (forall k v, In (k, v) r -> In (k, v) res \/ In (k, v) l).
Proof.
  revert res. induction l as [|[k v] l IH]; intros res H; cbn [merge_modules] in H.
  - injection H as <- <-. split; [auto|]. split; [auto|]. split.
    + intros k [H|[]]; auto.
    + auto.
  - destruct (dict_get k res) eqn:E; [discriminate|].
    destruct (IH _ H) as (Hs & Hnd & Hk & He). split; [auto|]. split.
    { intro Hn. apply Hnd, dict_set_NoDup, Hn. }
    split.
    + intros k' [Hk'|[Hk'|Hk']]; apply Hk; rewrite keys_dict_set; auto.
    + intros k' v' Hin. destruct (He k' v' Hin) as [H'|H'].
      * apply In_dict_set in H' as [[-> ->]|H']; simpl; auto.
      * simpl; auto.
Qed.

Lemma merge_conflict {PM DT} l res (st : io_state PM DT) k :
  In k (map fst l) -> In k (map fst res) -> exists e, merge_modules l res st = (Raised e, st).
Proof.
  revert res. induction l as [|[k' v] l IH]; intros res Hl Hr; [destruct Hl|].
  cbn [merge_modules]. destruct (dict_get k' res) eqn:E; [eexists; reflexivity|].
  apply IH; [|rewrite keys_dict_set; auto].
  destruct Hl as [Hl|Hl]; auto. simpl in Hl. subst.
  apply dict_get_None in E. contradiction.
Qed.

Section Cache.
Context {PM DT : Type} (dunder_name : PM -> str) (iter_modules : DT -> str -> list str).

Lemma lml_cached lm1 lm2 path known names r0 (st : io_state PM DT) :
  (forall n, In n names -> In n known -> exists m, dict_get n (sys_modules st) = Some m) ->
  load_modules_loop dunder_name lm1 path known names r0 st =
  load_modules_loop dunder_name lm2 path known names r0 st /\
  exists r out,
    load_modules_loop dunder_name lm1 path known names r0 st
    = (Done r, mkIO (files st) (dirs st) (sys_modules st) out) /\
    forall k m, In (k, m) r -> In (k, m) r0 \/
      exists n, In n names /\ In n known /\ dict_get n (sys_modules st) = Some m.
Proof.
  revert r0 st. induction names as [|n names IH]; intros r0 st Hc.
  - split; [reflexivity|]. exists r0, (stdout st). split; [destruct st; reflexivity|].
    intros k m H. left. exact H.
  - cbn [load_modules_loop]. rewrite LineFacts.format_one.
    destruct (mem n known) eqn:Hm; cbn [negb].
    + destruct (Hc n (or_introl eq_refl) (proj1 (mem_In _ _) Hm)) as [m Hg].
      cbv beta iota delta [mbind get ret print]. rewrite Hg.
      set (st1 := mkIO (files st) (dirs st) (sys_modules st)
                       (stdout st ++ [format (s2l "Loading module: {}") [dunder_name m]])).
      destruct (IH (dict_set (dunder_name m) m r0) st1) as [Heq (r & out & Hr & He)].
      { intros n' H1 H2. exact (Hc n' (or_intror H1) H2). }
      split; [exact Heq|]. exists r, out. split; [exact Hr|].
      intros k x Hx. destruct (He k x Hx) as [H'|(n' & H1 & H2 & H3)].
      * apply In_dict_set in H' as [[-> ->]|H']; [|left; exact H'].
        right. exists n. split; [left; reflexivity|]. split; [apply mem_In; exact Hm|exact Hg].
      * right. exists n'. split; [right; exact H1|]. auto.
    + destruct (IH r0 st) as [Heq (r & out & Hr & He)].
      { intros n' H1 H2. exact (Hc n' (or_intror H1) H2). }
      split; [exact Heq|]. exists r, out. split; [exact Hr|].
      intros k x Hx. destruct (He k x Hx) as [H'|(n' & H1 & H2 & H3)]; [left; exact H'|].
      right. exists n'. split; [right; exact H1|]. auto.
Qed.

(** X4. If every name that [pkgutil] yields for [path] and that is known is
    already in [sys.modules], [load_modules] imports nothing: its outcome
    does not depend on the loader, it raises nothing, it changes only the
    printed lines, and each module it returns is the [sys.modules] entry of
    such a name. *)
Theorem load_modules_cached lm1 lm2 path known (st : io_state PM DT) :
  (forall n, In n (iter_modules (dirs st) path) -> In n known ->
     exists m, dict_get n (sys_modules st) = Some m) ->
  load_modules dunder_name iter_modules lm1 path known st =
  load_modules dunder_name iter_modules lm2 path known st /\
  exists r out,
    load_modules dunder_name iter_modules lm1 path known st
    = (Done r, mkIO (files st) (dirs st) (sys_modules st) out) /\
    forall k m, In (k, m) r -> exists n,
      In n (iter_modules (dirs st) path) /\ In n known /\ dict_get n (sys_modules st) = Some m.
Proof.
  intro Hc. unfold load_modules, mbind at 1 2 3, get.
  destruct (lml_cached lm1 lm2 path known (iter_modules (dirs st) path) [] st Hc)
    as [Heq (r & out & Hr & He)].
  split; [exact Heq|]. exists r, out. split; [exact Hr|].
  intros k m H. destruct (He k m H) as [[]|Hx]. exact Hx.
Qed.
End Cache.

Section Host_facts.
Context {PM DT : Type} (dunder_name : PM -> str) (isdir : DT -> str -> bool)
  (listdir iter_modules : DT -> str -> list str)
  (load_module : str -> str -> M (io_state PM DT) PM)
  (mkdir_fails : io_state PM DT -> str -> bool) (make_dirs : DT -> str -> DT)
  (open_fails : io_state PM DT -> str -> bool) (add_file : DT -> str -> DT)
  (render : list (str * LoadedModule PM) -> str -> M (io_state PM DT) str).

Definition lookup_or_load (path n : str) (st : io_state PM DT) : M (io_state PM DT) PM :=
  match dict_get n (sys_modules st) with
  | None => load_module path n
  | Some m => ret m
  end.

Lemma lml_cons_unknown path known n names r0 (st : io_state PM DT) :
  mem n known = false ->
  load_modules_loop dunder_name load_module path known (n :: names) r0 st =
  load_modules_loop dunder_name load_module path known names r0 st.
Proof. intro H. cbn [load_modules_loop]. rewrite LineFacts.format_one, H. reflexivity. Qed.

Lemma lml_cons_known path known n names r0 (st : io_state PM DT) :
  mem n known = true ->
  load_modules_loop dunder_name load_module path known (n :: names) r0 st =
  mbind (lookup_or_load path n st)
        (fun m => mbind (print (format (s2l "Loading module: {}") [dunder_name m]))
           (fun _ => load_modules_loop dunder_name load_module path known names
                       (dict_set (dunder_name m) m r0))) st.
Proof. intro H. cbn [load_modules_loop]. rewrite LineFacts.format_one, H. reflexivity. Qed.

Lemma lml_keys path known names r0 (st : io_state PM DT) r st' :
  load_modules_loop dunder_name load_module path known names r0 st = (Done r, st') ->
  (NoDup (map fst r0) -> NoDup (map fst r)) /\
  (forall k m, In (k, m) r -> In (k, m) r0 \/ dunder_name m = k).
Proof.
  revert r0 st. induction names as [|n names IH]; intros r0 st H.
  - cbn in H. injection H as <- <-. split; auto.
  - destruct (mem n known) eqn:Hm.
    + rewrite lml_cons_known in H by exact Hm.
      destruct (lookup_or_load path n st st) as [[m|e] st1] eqn:E;
        [|rewrite (bind_raised _ _ _ _ _ E) in H; discriminate].
      rewrite (bind_done _ _ _ _ _ E) in H. cbv beta iota delta [mbind print] in H.
      destruct (IH _ _ H) as [Hnd He]. split.
      * intro H0. apply Hnd, dict_set_NoDup, H0.
      * intros k x Hx. destruct (He k x Hx) as [H'|H']; [|right; exact H'].
        apply In_dict_set in H' as [[-> ->]|H']; auto.
    + rewrite lml_cons_unknown in H by exact Hm. eauto.
Qed.

Lemma bmd_eq p (st : io_state PM DT) :
  build_module_dict dunder_name isdir listdir iter_modules load_module p st =
  if isdir (dirs st) p then
    match load_modules_loop dunder_name load_module p (module_list listdir st p)
            (iter_modules (dirs st) p) [] st with
    | (Done r, s) => (Done (map (fun kv => (fst kv, mkLoaded (fst kv) p (snd kv))) r), s)
    | (Raised e, s) => (Raised e, s)
    end
  else (Raised (AssertionError []), st).
Proof.
  cbv beta iota delta [build_module_dict enumerate_modules_in_dir mbind get ret raise
                       load_modules].
  destruct (isdir (dirs st) p); reflexivity.
Qed.

Lemma bmd_keys p (st : io_state PM DT) l st' :
  build_module_dict dunder_name isdir listdir iter_modules load_module p st = (Done l, st') ->
  NoDup (map fst l) /\
  forall k v, In (k, v) l -> lm_name v = k /\ lm_base_path v = p /\ dunder_name (lm_module v) = k.
Proof.
  rewrite bmd_eq. destruct (isdir (dirs st) p); [|discriminate].
  destruct (load_modules_loop dunder_name load_module p (module_list listdir st p)
              (iter_modules (dirs st) p) [] st) as [[r|e] s] eqn:E; [|discriminate].
  intro H. injection H as <- <-. destruct (lml_keys _ _ _ _ _ _ _ E) as [Hnd He].
  rewrite map_map. split; [exact (Hnd (NoDup_nil _))|].
  intros k v Hkv. apply in_map_iff in Hkv as [[k' m] [Heq Hin]]. simpl in Heq.
  injection Heq as <- <-. simpl. destruct (He k' m Hin) as [[]|Hd]. auto.
Qed.

Lemma ldl_keys ps res (st : io_state PM DT) r st' :
  load_dirs_loop dunder_name isdir listdir iter_modules load_module ps res st = (Done r, st') ->
  (NoDup (map fst res) -> NoDup (map fst r)) /\
  (forall k v, In (k, v) r -> In (k, v) res \/
     (lm_name v = k /\ In (lm_base_path v) ps /\ dunder_name (lm_module v) = k)).
Proof.
  revert res st. induction ps as [|p ps IH]; intros res st H.
  - cbn in H. injection H as <- <-. split; auto.
  - cbn [load_dirs_loop] in H. cbv beta iota delta [mbind get raise] in H.
    destruct (isdir (dirs st) p); [|discriminate].
    destruct (build_module_dict dunder_name isdir listdir iter_modules load_module p st)
      as [[l|e] st1] eqn:Eb; [|discriminate].
    destruct (merge_modules l res st1) as [[r1|e] st2] eqn:Em; [|discriminate].
    destruct (bmd_keys _ _ _ _ Eb) as [_ Hl].
    destruct (merge_ok _ _ _ _ _ Em) as (_ & Hnd2 & _ & He2).
    destruct (IH _ _ H) as [Hnd He]. split; [auto|].
    intros k v Hin. destruct (He k v Hin) as [H'|(Ha & Hb & Hc)].
    + destruct (He2 k v H') as [H''|H'']; [left; exact H''|right].
      destruct (Hl k v H'') as (Hn & Hp & Hd). rewrite Hp.
      split; [auto|]. split; [left; reflexivity|exact Hd].
    + right. split; [auto|]. split; [right; exact Hb|exact Hc].
Qed.

Lemma keeps_refl qs (s : io_state PM DT) : keeps_modules iter_modules listdir qs s s.
Proof. intros q _. auto. Qed.

Lemma keeps_trans qs (s1 s2 s3 : io_state PM DT) :
  keeps_modules iter_modules listdir qs s1 s2 -> keeps_modules iter_modules listdir qs s2 s3 ->
  keeps_modules iter_modules listdir qs s1 s3.
Proof.
  intros H1 H2 q Hq. destruct (H1 q Hq) as [A1 B1]. destruct (H2 q Hq) as [A2 B2].
  split; congruence.
Qed.

Lemma keeps_same qs (s s' : io_state PM DT) :
  files s' = files s -> dirs s' = dirs s -> keeps_modules iter_modules listdir qs s s'.
Proof. intros Hf Hd q _. unfold module_list, isfile. rewrite Hf, Hd. auto. Qed.

Lemma lookup_ok qs path n (st : io_state PM DT) m st1 :
  well_behaved_loader dunder_name iter_modules listdir load_module qs -> named dunder_name st ->
  lookup_or_load path n st st = (Done m, st1) ->
  dunder_name m = n /\ named dunder_name st1 /\ keeps_modules iter_modules listdir qs st st1.
Proof.
  intros Hw Hn. unfold lookup_or_load.
  destruct (dict_get n (sys_modules st)) as [m0|] eqn:E.
  - intro H. injection H as <- <-. split; [exact (Hn _ _ E)|]. split; [exact Hn|].
    apply keeps_refl.
  - intro H. destruct (Hw _ _ _ _ _ H) as (A & B & C). auto.
Qed.

Lemma lml_done qs path known names r0 (st : io_state PM DT) r st' :
  well_behaved_loader dunder_name iter_modules listdir load_module qs -> named dunder_name st ->
  load_modules_loop dunder_name load_module path known names r0 st = (Done r, st') ->
  named dunder_name st' /\ keeps_modules iter_modules listdir qs st st' /\
  (forall k, In k (map fst r0) -> In k (map fst r)) /\
  (forall n, In n names -> In n known -> In n (map fst r)).
Proof.
  intro Hw. revert r0 st. induction names as [|n names IH]; intros r0 st Hn H.
  - cbn in H. injection H as <- <-. split; [exact Hn|]. split; [apply keeps_refl|].
    split; [auto|]. intros n [].
  - destruct (mem n known) eqn:Hm.
    + rewrite lml_cons_known in H by exact Hm.
      destruct (lookup_or_load path n st st) as [[m|e] st1] eqn:E;
        [|rewrite (bind_raised _ _ _ _ _ E) in H; discriminate].
      rewrite (bind_done _ _ _ _ _ E) in H. cbv beta iota delta [mbind print] in H.
      destruct (lookup_ok qs path n st m st1 Hw Hn E) as (Hd & Hn1 & Hk1).
      match type of H with load_modules_loop _ _ _ _ _ _ ?s = _ =>
        destruct (IH _ s Hn1 H) as (Hn' & Hk & Hkeys & Hall) end.
      split; [exact Hn'|]. split.
      { eapply keeps_trans; [exact Hk1|]. eapply keeps_trans; [|exact Hk].
        apply keeps_same; reflexivity. }
      split.
      * intros k Hk0. apply Hkeys, keys_dict_set. auto.
      * intros n' [<-|Hn''] Hk0; [|auto]. apply Hkeys, keys_dict_set. auto.
    + rewrite lml_cons_unknown in H by exact Hm.
      destruct (IH _ _ Hn H) as (Hn' & Hk & Hkeys & Hall).
      split; [exact Hn'|]. split; [exact Hk|]. split; [exact Hkeys|].
      intros n' [<-|Hn''] Hk0; [|auto]. apply mem_In in Hk0. congruence.
Qed.

Lemma bmd_done qs p (st : io_state PM DT) l st' :
  well_behaved_loader dunder_name iter_modules listdir load_module qs -> named dunder_name st ->
  build_module_dict dunder_name isdir listdir iter_modules load_module p st = (Done l, st') ->
  named dunder_name st' /\ keeps_modules iter_modules listdir qs st st' /\
  (forall n, In n (iter_modules (dirs st) p) -> In n (module_list listdir st p) ->
     In n (map fst l)).
Proof.
  intros Hw Hn. rewrite bmd_eq. destruct (isdir (dirs st) p); [|discriminate].
  destruct (load_modules_loop dunder_name load_module p (module_list listdir st p)
              (iter_modules (dirs st) p) [] st) as [[r|e] s] eqn:E; [|discriminate].
  intro H. injection H as <- <-.
  destruct (lml_done qs _ _ _ _ _ _ _ Hw Hn E) as (Hn' & Hk & _ & Hall).
  split; [exact Hn'|]. split; [exact Hk|].
  intros n H1 H2. rewrite map_map. exact (Hall n H1 H2).
Qed.

Lemma ldl_app ps qs res (st : io_state PM DT) :
  load_dirs_loop dunder_name isdir listdir iter_modules load_module (ps ++ qs) res st =
  mbind (load_dirs_loop dunder_name isdir listdir iter_modules load_module ps res)
        (fun r => load_dirs_loop dunder_name isdir listdir iter_modules load_module qs r) st.
Proof.
  revert res st. induction ps as [|p ps IH]; intros res st; [reflexivity|].
  cbn [app load_dirs_loop]. cbv beta iota delta [mbind get raise].
  destruct (isdir (dirs st) p); [|reflexivity].
  destruct (build_module_dict dunder_name isdir listdir iter_modules load_module p st)
    as [[l|e] st1]; [|reflexivity].
  destruct (merge_modules l res st1) as [[r|e] st2]; [|reflexivity].
  rewrite IH. reflexivity.
Qed.

Lemma ldl_done qs ps res (st : io_state PM DT) r st' :
  well_behaved_loader dunder_name iter_modules listdir load_module qs -> named dunder_name st ->
  load_dirs_loop dunder_name isdir listdir iter_modules load_module ps res st = (Done r, st') ->
  named dunder_name st' /\ keeps_modules iter_modules listdir qs st st' /\
  (forall k, In k (map fst res) -> In k (map fst r)).
Proof.
  intro Hw. revert res st. induction ps as [|p ps IH]; intros res st Hn H.
  - cbn in H. injection H as <- <-. split; [exact Hn|]. split; [apply keeps_refl|auto].
  - cbn [load_dirs_loop] in H. cbv beta iota delta [mbind get raise] in H.
    destruct (isdir (dirs st) p); [|discriminate].
    destruct (build_module_dict dunder_name isdir listdir iter_modules load_module p st)
      as [[l|e] st1] eqn:Eb; [|discriminate].
    destruct (merge_modules l res st1) as [[r1|e] st2] eqn:Em; [|discriminate].
    destruct (bmd_done qs _ _ _ _ Hw Hn Eb) as (Hn1 & Hk1 & _).
    destruct (merge_ok _ _ _ _ _ Em) as (-> & _ & Hk2 & _).
    destruct (IH _ _ Hn1 H) as (Hn' & Hk & Hkeys).
    split; [exact Hn'|]. split; [eapply keeps_trans; eauto|].
    intros k Hk0. apply Hkeys, Hk2. auto.
Qed.

Lemma ldl_conflict qs p ps res (st : io_state PM DT) k :
  well_behaved_loader dunder_name iter_modules listdir load_module qs -> named dunder_name st ->
  In k (map fst res) -> In k (iter_modules (dirs st) p) -> In k (module_list listdir st p) ->
  exists e st', load_dirs_loop dunder_name isdir listdir iter_modules load_module (p :: ps) res st
                = (Raised e, st').
Proof.
  intros Hw Hn Hr Hi Hm. cbn [load_dirs_loop]. cbv beta iota delta [mbind get raise].
  destruct (isdir (dirs st) p); [|eexists; eexists; reflexivity].
  destruct (build_module_dict dunder_name isdir listdir iter_modules load_module p st)
    as [[l|e] st1] eqn:Eb; [|eexists; eexists; reflexivity].
  destruct (bmd_done qs _ _ _ _ Hw Hn Eb) as (_ & _ & Hall).
  destruct (merge_conflict l res st1 k (Hall k Hi Hm) Hr) as [e He].
  rewrite He. eexists; eexists; reflexivity.
Qed.

(** X6. When every module load that succeeds returns a module named as
    requested, keeps [sys.modules] registered under [__name__] and keeps
    the modules of [p1] and [p2], and the modules already in [sys.modules]
    are registered under their [__name__]: if a module name is yielded by
    [pkgutil] and is a [.py]/[.jinja2] module in two of the given
    directories, [load_multiple_module_dirs] raises an exception. *)
Theorem load_multiple_module_dirs_conflict A B C p1 p2 k (st : io_state PM DT) :
  well_behaved_loader dunder_name iter_modules listdir load_module [p1; p2] ->
  (forall n m, dict_get n (sys_modules st) = Some m -> dunder_name m = n) ->
  In k (iter_modules (dirs st) p1) -> In k (module_list listdir st p1) ->
  In k (iter_modules (dirs st) p2) -> In k (module_list listdir st p2) ->
  exists e st', load_multiple_module_dirs dunder_name isdir listdir iter_modules load_module
                  (A ++ p1 :: B ++ p2 :: C) st = (Raised e, st').
Proof.
  intros Hw Hn Hi1 Hm1 Hi2 Hm2. unfold load_multiple_module_dirs.
  rewrite ldl_app. unfold mbind at 1.
  destruct (load_dirs_loop dunder_name isdir listdir iter_modules load_module A [] st)
    as [[r1|e] st1] eqn:E1; [|eexists; eexists; reflexivity].
  destruct (ldl_done _ _ _ _ _ _ Hw Hn E1) as (Hn1 & Hk1 & _).
  cbn [load_dirs_loop]. cbv beta iota delta [mbind get raise].
  destruct (isdir (dirs st1) p1); [|eexists; eexists; reflexivity].
  destruct (build_module_dict dunder_name isdir listdir iter_modules load_module p1 st1)
    as [[l|e] st2] eqn:Eb; [|eexists; eexists; reflexivity].
  destruct (bmd_done _ _ _ _ _ Hw Hn1 Eb) as (Hn2 & Hk2 & Hall).
  destruct (Hk1 p1 (or_introl eq_refl)) as [Hi1' Hm1'].
  assert (Hl : In k (map fst l)) by (apply Hall; congruence).
  destruct (merge_modules l r1 st2) as [[r2|e] st3] eqn:Em; [|eexists; eexists; reflexivity].
  destruct (merge_ok _ _ _ _ _ Em) as (-> & _ & Hk3 & _).
  rewrite ldl_app. unfold mbind at 1.
  destruct (load_dirs_loop dunder_name isdir listdir iter_modules load_module B r2 st2)
    as [[r3|e] st4] eqn:E3; [|eexists; eexists; reflexivity].
  destruct (ldl_done _ _ _ _ _ _ Hw Hn2 E3) as (Hn4 & Hk4 & Hkeys).
  assert (Hk : keeps_modules iter_modules listdir [p1; p2] st st4)
    by (eapply keeps_trans; [exact Hk1|]; eapply keeps_trans; eauto).
  destruct (Hk p2 (or_intror (or_introl eq_refl))) as [Hi2' Hm2'].
  apply (ldl_conflict [p1; p2] p2 C r3 st4 k Hw Hn4).
  - apply Hkeys, Hk3. auto.
  - congruence.
  - congruence.
Qed.


(** X7. If the directories before [p] load, and [p] is not a directory in
    the state they leave, [load_multiple_module_dirs] raises
    [AssertionError("p is not a directory!")], with that state. *)
Theorem load_multiple_module_dirs_not_dir A p B (st st1 : io_state PM DT) r :
  load_multiple_module_dirs dunder_name isdir listdir iter_modules load_module A st
  = (Done r, st1) ->
  isdir (dirs st1) p = false ->
  load_multiple_module_dirs dunder_name isdir listdir iter_modules load_module (A ++ p :: B) st
  = (Raised (AssertionError (format (s2l "{} is not a directory!") [p])), st1).
Proof.
  unfold load_multiple_module_dirs. intros H Hp. rewrite ldl_app. unfold mbind at 1.
  rewrite H. cbn [load_dirs_loop]. cbv beta iota delta [mbind get]. rewrite Hp. reflexivity.
Qed.


Lemma rfind_None c p : rfind c p = None -> ~ In c p.
Proof.
  induction p as [|x p IH]; simpl; [auto|].
  destruct (rfind c p); [discriminate|].
  destruct (Ascii.eqb_spec x c); [discriminate|]. intros _ [H|H]; [congruence|].
  apply IH; auto.
Qed.

Lemma rfind_some c p i :
  rfind c p = Some i -> exists a b, p = a ++ c :: b /\ ~ In c b /\ length a = i.
Proof.
  revert i. induction p as [|x p IH]; intros i H; simpl in H; [discriminate|].
  destruct (rfind c p) as [j|] eqn:E.
  - injection H as <-. destruct (IH j eq_refl) as (a & b & -> & Hb & Hl).
    exists (x :: a), b. simpl. auto.
  - destruct (Ascii.eqb_spec x c); [|discriminate]. injection H as <-. subst.
    exists [], p. split; [auto|]. split; [apply rfind_None; auto|auto].
Qed.

Lemma basename_no_sep p : ~ In SEP (basename p).
Proof.
  unfold basename. destruct (rfind SEP p) as [i|] eqn:E.
  - destruct (rfind_some _ _ _ E) as (a & b & -> & Hb & <-).
    rewrite skipn_app, skipn_all2 by lia.
    replace (S (length a) - length a) with 1 by lia. exact Hb.
  - apply rfind_None. exact E.
Qed.

Lemma ends_with_sep d : ends_with [SEP] d = true -> exists d', d = d' ++ [SEP].
Proof.
  unfold ends_with. change (rev [SEP]) with [SEP].
  destruct (rev d) as [|c r] eqn:E; [discriminate|].
  cbn [is_prefix]. rewrite andb_true_r. intro H. apply Ascii.eqb_eq in H. subst.
  exists (rev r). rewrite <- (rev_involutive d), E. reflexivity.
Qed.

Lemma basename_join_basename d f :
  d <> [] -> basename (path_join d (basename f)) = basename f.
Proof.
  intro Hd. pose proof (basename_no_sep f) as Hb. unfold path_join.
  destruct (is_prefix [SEP] (basename f)) eqn:E.
  - destruct (basename f) as [|c b]; [discriminate|]. cbn [is_prefix] in E.
    rewrite andb_true_r in E. apply Ascii.eqb_eq in E. subst. exfalso. apply Hb. left. auto.
  - destruct d as [|x d]; [congruence|].
    destruct (ends_with [SEP] (x :: d)) eqn:Ee.
    + apply basename_under; auto. right. apply ends_with_sep. auto.
    + replace ((x :: d) ++ SEP :: basename f) with (((x :: d) ++ [SEP]) ++ basename f)
        by (rewrite <- app_assoc; reflexivity).
      apply basename_under; auto. right. eauto.
Qed.

Lemma write_file_files data f od (st : io_state PM DT) q :
  q <> output_target od f ->
  files (snd (write_file mkdir_fails make_dirs open_fails add_file data f od st)) q = files st q.
Proof.
  intro Hq. unfold write_file, output_target in *.
  destruct od as [[|c d]|]; unfold mbind, get, print, ret, write, put.
  - cbn. destruct (open_fails _ f); [reflexivity|]. cbn.
    destruct (str_eqb q f) eqn:E; [apply str_eqb_eq in E; congruence|reflexivity].
  - destruct (mkdir_fails st (c :: d)); [reflexivity|]. cbn.
    destruct (open_fails _ _); [reflexivity|]. cbn.
    destruct (str_eqb q _) eqn:E; [apply str_eqb_eq in E; congruence|reflexivity].
  - cbn. destruct (open_fails _ f); [reflexivity|]. cbn.
    destruct (str_eqb q f) eqn:E; [apply str_eqb_eq in E; congruence|reflexivity].
Qed.

(** X8. A successful [write_file] stores the data at the output target
    ([output_dir/basename(f)] for a non-empty [output_dir], [f] itself
    otherwise), changes no other file, and the target has the same base
    name as [f]. *)
Theorem write_file_effect data f od (st st' : io_state PM DT) :
  write_file mkdir_fails make_dirs open_fails add_file data f od st = (Done tt, st') ->
  files st' (output_target od f) = Some data /\
  (forall q, q <> output_target od f -> files st' q = files st q) /\
  basename (output_target od f) = basename f.
Proof.
  intro H. split; [|split].
  - unfold write_file, output_target in *.
    destruct od as [[|c d]|]; cbv beta iota delta [mbind get print ret write put raise] in H.
    + destruct (open_fails _ f); [discriminate|]. injection H as <-. cbn.
      rewrite str_eqb_refl. reflexivity.
    + destruct (mkdir_fails st (c :: d)); [discriminate|].
      destruct (open_fails _ _); [discriminate|]. injection H as <-. cbn.
      rewrite str_eqb_refl. reflexivity.
    + destruct (open_fails _ f); [discriminate|]. injection H as <-. cbn.
      rewrite str_eqb_refl. reflexivity.
  - intros q Hq. pose proof (write_file_files data f od st q Hq) as Hw.
    rewrite H in Hw. exact Hw.
  - unfold output_target. destruct od as [[|c d]|]; auto.
    apply basename_join_basename. discriminate.
Qed.

Lemma main_loop_app pre post mods od (st : io_state PM DT) :
  main_loop mkdir_fails make_dirs open_fails add_file render (pre ++ post) mods od st =
  mbind (main_loop mkdir_fails make_dirs open_fails add_file render pre mods od)
        (fun _ => main_loop mkdir_fails make_dirs open_fails add_file render post mods od) st.
Proof.
  revert st. induction pre as [|f pre IH]; intro st; [reflexivity|].
  cbn [app main_loop]. cbv beta iota delta [mbind get read_and_render_file raise].
  destruct (negb (isfile st f)); [reflexivity|].
  destruct (files st f) as [data|]; [|reflexivity].
  destruct (render mods data st) as [[out|e] st1]; [|reflexivity].
  destruct (write_file mkdir_fails make_dirs open_fails add_file out f od st1)
    as [[[]|e] st2]; [|reflexivity].
  rewrite IH. reflexivity.
Qed.


End Host_facts.

Import HostFixtures.

Lemma fx_load_module_ok qs :
  well_behaved_loader fx_name fx_iter_modules fx_listdir fx_load_module qs.
Proof.
  intros p n s m s' H. injection H as <- <-. split; [reflexivity|]. split.
  - intros Hn n' m' Hg. simpl in Hg. rewrite dict_get_set in Hg.
    destruct (str_eqb n' n) eqn:E; [|exact (Hn _ _ Hg)].
    injection Hg as <-. apply str_eqb_eq in E. exact (eq_sym E).
  - intros q _. split; reflexivity.
Qed.

Lemma load_modules_cached_witness :
  load_modules fx_name fx_iter_modules fx_load_module (s2l "a") [s2l "foo"] fx_state_foo =
  load_modules fx_name fx_iter_modules fx_load_fail (s2l "a") [s2l "foo"] fx_state_foo /\
  exists r out,
    load_modules fx_name fx_iter_modules fx_load_module (s2l "a") [s2l "foo"] fx_state_foo
    = (Done r, mkIO (files fx_state_foo) (dirs fx_state_foo) (sys_modules fx_state_foo) out) /\
    forall k m, In (k, m) r -> exists n,
      In n (fx_iter_modules (dirs fx_state_foo) (s2l "a")) /\ In n [s2l "foo"] /\
      dict_get n (sys_modules fx_state_foo) = Some m.
Proof.
  apply load_modules_cached. intros n _ [<-|[]]. eexists. reflexivity.
Defined.



Lemma load_multiple_module_dirs_conflict_witness :
  exists e st',
    load_multiple_module_dirs fx_name fx_isdir fx_listdir fx_iter_modules fx_load_module
      [s2l "a"; s2l "b"] fx_state = (Raised e, st').
Proof.
  apply (load_multiple_module_dirs_conflict fx_name fx_isdir fx_listdir fx_iter_modules
           fx_load_module [] [] [] (s2l "a") (s2l "b") (s2l "foo") fx_state).
  - apply fx_load_module_ok.
  - intros n m H. discriminate.
  - vm_compute. left. reflexivity.
  - vm_compute. left. reflexivity.
  - vm_compute. left. reflexivity.
  - vm_compute. left. reflexivity.
Defined.

Lemma load_multiple_module_dirs_not_dir_witness :
  exists r st1,
    load_multiple_module_dirs fx_name fx_isdir fx_listdir fx_iter_modules fx_load_module
      [s2l "a"] fx_state = (Done r, st1) /\
    load_multiple_module_dirs fx_name fx_isdir fx_listdir fx_iter_modules fx_load_module
      ([s2l "a"] ++ s2l "c" :: [s2l "b"]) fx_state
    = (Raised (AssertionError (format (s2l "{} is not a directory!") [s2l "c"])), st1).
Proof.
  do 2 eexists. split; [reflexivity|].
  eapply load_multiple_module_dirs_not_dir; reflexivity.
Defined.

Lemma write_file_effect_witness :
  exists st',
    write_file fx_never fx_make_dirs fx_never fx_add_file (s2l "x") (s2l "src/in.txt")
      (Some (s2l "out")) fx_state = (Done tt, st') /\
    (files st' (output_target (Some (s2l "out")) (s2l "src/in.txt")) = Some (s2l "x") /\
     (forall q, q <> output_target (Some (s2l "out")) (s2l "src/in.txt") ->
        files st' q = files fx_state q) /\
     basename (output_target (Some (s2l "out")) (s2l "src/in.txt")) = basename (s2l "src/in.txt")).
Proof.
  eexists. split; [reflexivity|].
  apply (write_file_effect fx_never fx_make_dirs fx_never fx_add_file). reflexivity.
Defined.


End HostFacts.

(** ** Rendering whole files *)
Module RenderFacts.
Import Py Kigen Props Fixtures Facts ScanFacts PathFacts.

Section RenderProps.
Variable expand_template : str -> list (str * str) -> str.

Lemma render_blocks_err bs mods e :
  render_blocks expand_template bs mods = Err e <->
  exists pre b post, bs = pre ++ b :: post /\
    (forall b', In b' pre -> exists s, render_block expand_template b' mods = Ok s) /\
    render_block expand_template b mods = Err e.
Proof.
  split.
  - induction bs as [|b bs IH]; simpl; [discriminate|].
    destruct (render_block expand_template b mods) as [s|e'] eqn:Eb; simpl.
    + destruct (render_blocks expand_template bs mods) as [rs|e''] eqn:Er; simpl; [discriminate|].
      intro H. injection H as ->. destruct (IH eq_refl) as (pre & b' & post & -> & Hpre & Hb).
      exists (b :: pre), b', post. split; [reflexivity|]. split; [|exact Hb].
      intros b'' [<-|H]; [exists s; exact Eb | apply Hpre; exact H].
    + intro H. injection H as ->. exists [], b, bs. split; [reflexivity|]. split; [intros _ []|auto].
  - intros (pre & b & post & -> & Hpre & Hb). induction pre as [|b' pre IH]; simpl.
    + rewrite Hb. reflexivity.
    + destruct (Hpre b' (or_introl eq_refl)) as [s Hs]. rewrite Hs. simpl.
      rewrite IH; [reflexivity|]. intros; apply Hpre; right; auto.
Qed.

(** X11. [render_file] raises [e] exactly when scanning the text raises
    [e], or scanning succeeds and [e] is raised by the first block that
    fails to render, all blocks before it rendering. *)
Theorem render_file_errors t mods e :
  render_file expand_template t mods = Err e <->
  extract_blocks t = Err e \/
  exists pre b post, extract_blocks t = Ok (pre ++ b :: post) /\
    (forall b', In b' pre -> exists s, render_block expand_template b' mods = Ok s) /\
    render_block expand_template b mods = Err e.
Proof.
  unfold render_file. destruct (extract_blocks t) as [bs|e'] eqn:E; simpl.
  - destruct (render_blocks expand_template bs mods) as [rs|e'] eqn:Er; simpl.
    + split; [discriminate|]. intros [H|(pre & b & post & H & Hpre & Hb)]; [discriminate|].
      injection H as ->. exfalso.
      assert (render_blocks expand_template (pre ++ b :: post) mods = Err e)
        by (apply render_blocks_err; exists pre, b, post; auto).
      congruence.
    + apply render_blocks_err in Er as Hx.
      split.
      * intro H. injection H as ->. right.
        destruct Hx as (pre & b & post & -> & Hpre & Hb). exists pre, b, post. auto.
      * intros [H|(pre & b & post & H & Hpre & Hb)]; [discriminate|].
        injection H as ->. f_equal.
        assert (render_blocks expand_template (pre ++ b :: post) mods = Err e)
          by (apply render_blocks_err; exists pre, b, post; auto).
        congruence.
  - split; [intro H; left; injection H as ->; reflexivity|].
    intros [H|(pre & b & post & H & _)]; [injection H as ->; reflexivity|discriminate].
Qed.

Lemma slice_app_le {A} (L E : list A) i j :
  j <= length L -> slice (L ++ E) i j = slice L i j.
Proof.
  intro Hj. unfold slice. destruct (Nat.le_gt_cases i (length L)) as [Hi|Hi].
  - rewrite skipn_app. replace (i - length L) with 0 by lia. simpl skipn.
    rewrite firstn_app, length_skipn.
    replace (j - i - (length L - i)) with 0 by lia. rewrite firstn_O, app_nil_r. reflexivity.
  - replace (j - i) with 0 by lia. reflexivity.
Qed.

Lemma split_loop_app L E lo idx bs :
  spans_from L lo bs -> split_loop (L ++ E) idx bs = split_loop L idx bs.
Proof.
  revert lo idx. induction bs as [|b bs IH]; intros lo idx H; simpl; auto.
  destruct H as [(H1 & H2 & H3 & _) H4]. rewrite slice_app_le by lia.
  erewrite IH; eauto.
Qed.

Lemma extract_blocks_quiet_tail t t' extra :
  splitlines t' = splitlines t ++ extra ->
  (forall l, In l extra -> contains START_MARKER l = false /\ contains STOP_MARKER l = false) ->
  extract_blocks t' = extract_blocks t.
Proof.
  intros Hs Hq. unfold extract_blocks. rewrite Hs, scan_lines_app.
  destruct (scan_lines init_state 0 (splitlines t)); simpl; [|reflexivity].
  rewrite scan_lines_quiet by exact Hq. reflexivity.
Qed.

(** X12. Lines without a marker after the text [t] do not change what
    [render_file] returns: the text after the last block never reaches the
    output. *)
Theorem render_file_quiet_tail t t' extra mods :
  splitlines t' = splitlines t ++ extra ->
  (forall l, In l extra -> contains START_MARKER l = false /\ contains STOP_MARKER l = false) ->
  render_file expand_template t' mods = render_file expand_template t mods.
Proof.
  intros Hs Hq. unfold render_file. rewrite (extract_blocks_quiet_tail t t' extra Hs Hq).
  destruct (extract_blocks t) as [bs|e] eqn:E; simpl; [|reflexivity].
  unfold split_file_at_blocks. rewrite Hs.
  rewrite (split_loop_app _ _ 0 0 bs (extract_blocks_spans t bs E)). reflexivity.
Qed.

(** X13. A text none of whose lines carries a start or end marker renders
    to the empty string. *)
Theorem render_file_no_markers t mods :
  (forall l, In l (splitlines t) -> contains START_MARKER l = false /\ contains STOP_MARKER l = false) ->
  render_file expand_template t mods = Ok [].
Proof.
  intro Hq. unfold render_file, extract_blocks.
  rewrite scan_lines_quiet by exact Hq. reflexivity.
Qed.
End RenderProps.

Lemma render_file_quiet_tail_witness :
  render_file (fun _ _ => []) text_A_block_B [(s2l "f", module_foo)] =
  render_file (fun _ _ => []) text_lead_block [(s2l "f", module_foo)].
Proof.
  apply (render_file_quiet_tail _ text_lead_block text_A_block_B [s2l "B"]).
  - vm_compute. reflexivity.
  - intros l [<-|[]]. split; reflexivity.
Defined.

Lemma render_file_no_markers_witness :
  render_file (fun _ _ => []) (lines_text ["A"; "B"]%string) [(s2l "f", module_foo)] = Ok [].
Proof.
  apply render_file_no_markers. vm_compute. intros l [<-|[<-|[]]]; split; reflexivity.
Defined.

End RenderFacts.
